(** * p2p-discovery2: peer registry, handshake and chain-state aggregator

    A shallow embedding of [ethpeer/peer.go] (known-hash caches, [Peer],
    [PeerSet]) and of the merge loop of [proxy.Start] in [main.go],
    followed by the properties of these functions.

    Conventions.
    - Go packages are modules of the same name.
    - A Go pointer that may be nil is an [option]; dereferencing nil makes
      the operation [Panic].
    - [common.Hash] is a byte array and is kept as a list of bytes.
    - [*big.Int] is a [Z] behind an [option].
    - A Go map is a [gmap]; the order in which [range] visits it is an
      explicit argument wherever the result depends on it. *)

From Stdlib Require Import ZArith NArith Strings.Ascii Strings.String Strings.Byte.
From stdpp Require Import base decidable option list countable gmap fin_sets strings.

#[local] Set Warnings "-clear-no-such-hyp,-abstract-large-number".

(** ** Outcomes of operations that may panic *)

Inductive outcome (A : Type) : Type :=
  | Ok (a : A)
  | Panic.
Arguments Ok {A} a.
Arguments Panic {A}.

#[global] Instance outcome_bind : MBind outcome :=
  λ A B (f : A → outcome B) (m : outcome A),
    match m with
    | Ok a => f a
    | Panic => Panic
    end.

(** ** Go [error] values

    [errorString] is what [errors.New] returns. [fmt.Errorf] is used only
    by [errResp], whose text starts with the numeric error code; the code
    is kept and the rest of the text is not. *)

Inductive error : Type :=
  | errorString (text : string)
  | Errorf (code : Z)
  | DiscReadTimeout.

#[global] Instance error_eq_dec : EqDecision error.
Proof. solve_decision. Defined.

#[global] Instance byte_eq_dec : EqDecision byte := Byte.byte_eq_dec.

#[global] Instance byte_countable : Countable byte :=
  inj_countable Byte.to_N Byte.of_N Byte.of_to_N.

(** ** Package common *)

Module common.

(** [Hash] is [[32]byte]; Go compares arrays bytewise. *)
Definition Hash : Type := list byte.

(** The zero value of [Hash]. *)
Definition zero : Hash := replicate 32 x00.

Definition hex_digit (n : N) : ascii :=
  match n with
  | 0%N => "0" | 1%N => "1" | 2%N => "2" | 3%N => "3"
  | 4%N => "4" | 5%N => "5" | 6%N => "6" | 7%N => "7"
  | 8%N => "8" | 9%N => "9" | 10%N => "a" | 11%N => "b"
  | 12%N => "c" | 13%N => "d" | 14%N => "e" | _ => "f"
  end%char.

(** Two lower-case digits per byte, high nibble first: what
    [fmt.Sprintf("%x", bs)] and [hex.EncodeToString] print. *)
Fixpoint hex_bytes (bs : list byte) : string :=
  match bs with
  | [] => EmptyString
  | b :: rest =>
      let n := Byte.to_N b in
      String (hex_digit (n / 16)) (String (hex_digit (n mod 16)) (hex_bytes rest))
  end.

(** [Hash.Hex]: the digits behind a ["0x"] prefix. *)
Definition Hex (h : Hash) : string := String "0" (String "x" (hex_bytes h)).

(** Reading the digits back, used to show that [Hex] loses nothing. *)
Definition unhex_digit (c : ascii) : N :=
  (if decide (c = "0") then 0 else if decide (c = "1") then 1
   else if decide (c = "2") then 2 else if decide (c = "3") then 3
   else if decide (c = "4") then 4 else if decide (c = "5") then 5
   else if decide (c = "6") then 6 else if decide (c = "7") then 7
   else if decide (c = "8") then 8 else if decide (c = "9") then 9
   else if decide (c = "a") then 10 else if decide (c = "b") then 11
   else if decide (c = "c") then 12 else if decide (c = "d") then 13
   else if decide (c = "e") then 14 else 15)%char%N.

Fixpoint unhex_bytes (s : string) : list (option byte) :=
  match s with
  | String hi (String lo rest) =>
      Byte.of_N (unhex_digit hi * 16 + unhex_digit lo) :: unhex_bytes rest
  | _ => []
  end.

End common.

(** ** Package math/big *)

Module big.

(** Comparison of two values, and [x.Cmp(y)] on the pointers: it reads
    both operands and panics when one of them is nil. *)
Definition cmp (a b : Z) : comparison := (a ?= b)%Z.

Definition Cmp (x y : option Z) : outcome comparison :=
  match x, y with
  | Some a, Some b => Ok (cmp a b)
  | _, _ => Panic
  end.

(** [r > 0] for the [int] that [Cmp] returns. *)
Definition positive (c : comparison) : bool :=
  match c with Gt => true | _ => false end.

End big.

(** ** Package set (gopkg.in/fatih/set.v0)

    A set of hashes over a Go map. [Pop] removes the item that [range]
    yields first. Go starts a map iteration at a position of its own
    choosing, so that position is the argument [start]: any function is
    a legal choice, and the properties below hold for all of them. *)

Module set.

Definition Set_ : Type := gset common.Hash.

Definition New : Set_ := ∅.

Definition Add (s : Set_) (item : common.Hash) : Set_ := {[item]} ∪ s.

Definition Has (s : Set_) (item : common.Hash) : bool := bool_decide (item ∈ s).

(** [Size] returns a Go [int]. *)
Definition Size (s : Set_) : Z := Z.of_nat (size s).

(** The item removed, nil on an empty set, and the set left behind. *)
Definition Pop (start : Set_ → nat) (s : Set_) : option common.Hash * Set_ :=
  match elements s with
  | [] => (None, s)
  | x :: rest =>
      let item := nth (start s mod S (length rest)) (x :: rest) x in
      (Some item, s ∖ {[item]})
  end.

End set.

(** ** Package types (go-ethereum/core/types)

    Only what this program reads: the hash of a transaction and of a
    block, and the number of a header. The remaining content is an
    opaque byte string. *)

Module types.

Record Transaction : Type := mkTransaction {
  tx_hash : common.Hash;
  tx_body : list byte
}.

Record Header : Type := mkHeader {
  Number : option Z;
  header_rest : list byte
}.

(** The zero value of [Header]: [Number] is a nil pointer. *)
Definition zero_Header : Header := {| Number := None; header_rest := [] |}.

Record Block : Type := mkBlock {
  block_hash : common.Hash;
  block_body : list byte
}.

End types.

(** ** Package p2p

    The transport is an abstract typed-message channel. [MsgReadWriter]
    is modelled by a scripted double: the messages still to be read, the
    messages written so far, and the error, if any, with which writes
    fail. [In] is what an inbound payload decodes to and [Out] what is
    handed to [Send]. *)

Module p2p.

Record Peer : Type := mkPeer { ID : list byte }.

Record Msg (In : Type) : Type := mkMsg {
  Code : N;
  Size : N;
  Decode : option In          (* None: the payload does not decode *)
}.
Arguments mkMsg {In}.
Arguments Code {In}.
Arguments Size {In}.
Arguments Decode {In}.

Record MsgReadWriter (In Out : Type) : Type := mkRW {
  inbound : list (error + Msg In);
  outbound : list (N * Out);
  write_error : option error
}.
Arguments mkRW {In Out}.
Arguments inbound {In Out}.
Arguments outbound {In Out}.
Arguments write_error {In Out}.

(** [ReadMsg]: the next inbound message or read error; [None] when
    nothing ever arrives and the call blocks. *)
Definition ReadMsg {In Out} (rw : MsgReadWriter In Out)
  : option ((error + Msg In) * MsgReadWriter In Out) :=
  match inbound rw with
  | [] => None
  | m :: rest =>
      Some (m, {| inbound := rest; outbound := outbound rw;
                  write_error := write_error rw |})
  end.

(** [Send(rw, code, data)] *)
Definition Send {In Out} (rw : MsgReadWriter In Out) (msgcode : N) (data : Out)
  : MsgReadWriter In Out * option error :=
  match write_error rw with
  | Some e => (rw, Some e)
  | None =>
      ({| inbound := inbound rw; outbound := outbound rw ++ [(msgcode, data)];
          write_error := None |}, None)
  end.

(** [p.ID().String()]: [discover.NodeID.String] prints the bytes of the
    identifier with ["%x"]. *)
Definition ID_String (p : Peer) : string := common.hex_bytes (ID p).

End p2p.

(** ** Package ethpeer (ethpeer/peer.go) *)

Module ethpeer.

Definition errClosed : error := errorString "peer set is closed".
Definition errAlreadyRegistered : error := errorString "peer is already registered".
Definition errNotRegistered : error := errorString "peer is not registered".

Definition eth62 : N := 62.
Definition eth63 : N := 63.

Definition ProtocolMaxMsgSize : N := 10 * 1024 * 1024.

Definition StatusMsg : N := 0.
Definition NewBlockHashesMsg : N := 1.
Definition TxMsg : N := 2.
Definition GetBlockHeadersMsg : N := 3.
Definition BlockHeadersMsg : N := 4.
Definition GetBlockBodiesMsg : N := 5.
Definition BlockBodiesMsg : N := 6.
Definition NewBlockMsg : N := 7.
Definition GetNodeDataMsg : N := 13.
Definition NodeDataMsg : N := 14.
Definition GetReceiptsMsg : N := 15.
Definition ReceiptsMsg : N := 16.

Definition maxKnownTxs : Z := 32768.
Definition maxKnownBlocks : Z := 1024.

Record statusData : Type := mkStatus {
  ProtocolVersion : N;
  NetworkId : N;
  TD : option Z;
  CurrentBlock : common.Hash;
  GenesisBlock : common.Hash
}.

(** The zero value held by [var status statusData]. *)
Definition zero_status : statusData :=
  {| ProtocolVersion := 0; NetworkId := 0; TD := None;
     CurrentBlock := common.zero; GenesisBlock := common.zero |}.

(** An element of [newBlockHashesData]. Its unexported fields
    ([header], [time], [origin]) are never assigned and are left out. *)
Record announce : Type := mkAnnounce {
  Hash : common.Hash;
  Number : N
}.

Definition zero_announce : announce := {| Hash := common.zero; Number := 0 |}.

(** What this package hands to [p2p.Send]. *)
Inductive payload : Type :=
  | data_status (s : statusData)
  | data_newBlockHashes (request : list announce)
  | data_transactions (txs : list types.Transaction)
  | data_newBlock (block : types.Block) (td : option Z).

Abbreviation MsgReadWriter := (p2p.MsgReadWriter statusData payload).

(** [forkDrop] is never touched and [lock] has no sequential content;
    both are left out. *)
Record Peer : Type := mkPeer {
  id : string;
  genesis : common.Hash;
  P : p2p.Peer;
  rw : MsgReadWriter;
  version : N;
  head : common.Hash;
  td : option Z;
  knownTxs : set.Set_;
  knownBlocks : set.Set_
}.

Definition with_rw (p : Peer) (rw' : MsgReadWriter) : Peer :=
  {| id := id p; genesis := genesis p; P := P p; rw := rw'; version := version p;
     head := head p; td := td p; knownTxs := knownTxs p; knownBlocks := knownBlocks p |}.

Definition with_head_td (p : Peer) (head' : common.Hash) (td' : option Z) : Peer :=
  {| id := id p; genesis := genesis p; P := P p; rw := rw p; version := version p;
     head := head'; td := td'; knownTxs := knownTxs p; knownBlocks := knownBlocks p |}.

Definition with_genesis (p : Peer) (g : common.Hash) : Peer :=
  {| id := id p; genesis := g; P := P p; rw := rw p; version := version p;
     head := head p; td := td p; knownTxs := knownTxs p; knownBlocks := knownBlocks p |}.

Definition with_knownTxs (p : Peer) (s : set.Set_) : Peer :=
  {| id := id p; genesis := genesis p; P := P p; rw := rw p; version := version p;
     head := head p; td := td p; knownTxs := s; knownBlocks := knownBlocks p |}.

Definition with_knownBlocks (p : Peer) (s : set.Set_) : Peer :=
  {| id := id p; genesis := genesis p; P := P p; rw := rw p; version := version p;
     head := head p; td := td p; knownTxs := knownTxs p; knownBlocks := s |}.

Definition NewPeer (version : N) (p : p2p.Peer) (rw : MsgReadWriter) : Peer :=
  {| P := p; rw := rw; version := version;
     id := common.hex_bytes (p2p.ID p);
     td := Some 0%Z;
     knownTxs := set.New; knownBlocks := set.New;
     genesis := common.zero; head := common.zero |}.

Definition Head (p : Peer) : common.Hash * option Z :=
  match td p with
  | None => (head p, None)
  | Some v => (head p, Some v)
  end.

(** [p.td.Set(td)] writes through [p.td] and reads [td], unless the two
    pointers are equal: [Set] then returns at once, so two nil pointers
    do not panic. *)
Definition SetHead (p : Peer) (hash : common.Hash) (td' : option Z) : outcome Peer :=
  match td p, td' with
  | Some _, Some v => Ok (with_head_td p hash (Some v))
  | None, None => Ok (with_head_td p hash None)
  | _, _ => Panic
  end.

Definition SetGenesis (p : Peer) (g : common.Hash) : Peer := with_genesis p g.

Definition Genesis (p : Peer) : common.Hash := genesis p.

Record PeerInfo : Type := mkPeerInfo {
  info_Version : N;
  info_Difficulty : option Z;
  info_Head : string
}.

Definition Info (p : Peer) : PeerInfo :=
  let '(hash, td) := Head p in
  {| info_Version := version p; info_Difficulty := td; info_Head := common.Hex hash |}.

Section Marking.

(** Where Go starts the iteration inside [Pop]. *)
Variable start : set.Set_ → nat.

(** [for s.Size() >= limit { s.Pop() }]; [None] when [fuel] tests of
    the condition were not enough. *)
Fixpoint drop_known (fuel : nat) (limit : Z) (s : set.Set_) : option set.Set_ :=
  match fuel with
  | O => None
  | S fuel' =>
      if decide (limit ≤ set.Size s)%Z
      then drop_known fuel' limit (set.Pop start s).2
      else Some s
  end.

(** Every turn of the loop removes one member, so one test more than
    the size is enough. *)
Definition MarkBlock (p : Peer) (hash : common.Hash) : option Peer :=
  s ← drop_known (S (size (knownBlocks p))) maxKnownBlocks (knownBlocks p);
  Some (with_knownBlocks p (set.Add s hash)).

Definition MarkTransaction (p : Peer) (hash : common.Hash) : option Peer :=
  s ← drop_known (S (size (knownTxs p))) maxKnownTxs (knownTxs p);
  Some (with_knownTxs p (set.Add s hash)).

End Marking.

Definition SendTransactions (p : Peer) (txs : list types.Transaction)
  : Peer * option error :=
  let p1 := with_knownTxs p
              (foldl (λ s tx, set.Add s (types.tx_hash tx)) (knownTxs p) txs) in
  let '(rw', err) := p2p.Send (rw p1) TxMsg (data_transactions txs) in
  (with_rw p1 rw', err).

(** One turn of [for i := 0; i < len(hashes); i++]: both index
    expressions are bounds-checked. *)
Definition fill_request (hashes : list common.Hash) (numbers : list N)
    (acc : outcome (list announce)) (i : nat) : outcome (list announce) :=
  request ← acc;
  match hashes !! i with
  | None => Panic
  | Some h =>
      let request1 := alter (λ a, {| Hash := h; Number := Number a |}) i request in
      match numbers !! i with
      | None => Panic
      | Some n =>
          Ok (alter (λ a, {| Hash := Hash a; Number := n |}) i request1)
      end
  end.

Definition SendNewBlockHashes (p : Peer) (hashes : list common.Hash) (numbers : list N)
  : outcome (Peer * option error) :=
  let p1 := with_knownBlocks p (foldl set.Add (knownBlocks p) hashes) in
  request ← foldl (fill_request hashes numbers)
              (Ok (replicate (length hashes) zero_announce))
              (seq 0 (length hashes));
  let '(rw', err) := p2p.Send (rw p1) NewBlockHashesMsg (data_newBlockHashes request) in
  Ok (with_rw p1 rw', err).

Definition SendNewBlock (p : Peer) (block : types.Block) (td : option Z)
  : Peer * option error :=
  let p1 := with_knownBlocks p (set.Add (knownBlocks p) (types.block_hash block)) in
  let '(rw', err) := p2p.Send (rw p1) NewBlockMsg (data_newBlock block td) in
  (with_rw p1 rw', err).

(** *** Handshake *)

(** [type errCode int] and its constants, numbered by [iota]. *)
Definition errCode : Type := Z.
Definition ErrMsgTooLarge : errCode := 0%Z.
Definition ErrDecode : errCode := 1%Z.
Definition ErrInvalidMsgCode : errCode := 2%Z.
Definition ErrProtocolVersionMismatch : errCode := 3%Z.
Definition ErrNetworkIdMismatch : errCode := 4%Z.
Definition ErrGenesisBlockMismatch : errCode := 5%Z.
Definition ErrNoStatusMsg : errCode := 6%Z.
Definition ErrExtraStatusMsg : errCode := 7%Z.
Definition ErrSuspendedPeer : errCode := 8%Z.

Definition errResp (code : errCode) : error := Errorf code.

(** [readStatus] returns the transport after the read, the content of
    [*status] and the error; [None] when [ReadMsg] blocks for ever. A
    payload that fails to decode leaves [*status] as it was. *)
Definition readStatus (p : Peer) (network : N) (status : statusData)
    (genesis : common.Hash) : option (MsgReadWriter * statusData * option error) :=
  match p2p.ReadMsg (rw p) with
  | None => None
  | Some (inl err, rw') => Some (rw', status, Some err)
  | Some (inr msg, rw') =>
      if decide (p2p.Code msg ≠ StatusMsg) then
        Some (rw', status, Some (errResp ErrNoStatusMsg))
      else if decide (ProtocolMaxMsgSize < p2p.Size msg)%N then
        Some (rw', status, Some (errResp ErrMsgTooLarge))
      else
        match p2p.Decode msg with
        | None => Some (rw', status, Some (errResp ErrDecode))
        | Some status' =>
            if decide (GenesisBlock status' ≠ genesis) then
              Some (rw', status', Some (errResp ErrGenesisBlockMismatch))
            else if decide (NetworkId status' ≠ network) then
              Some (rw', status', Some (errResp ErrNetworkIdMismatch))
            else if decide (ProtocolVersion status' ≠ version p) then
              Some (rw', status', Some (errResp ErrProtocolVersionMismatch))
            else Some (rw', status', None)
        end
  end.

(** The two goroutines of [Handshake] and the timer race; how the race
    goes is the [schedule]: which goroutine reports on [errc] first,
    and at which turn of the [select] loop, if any, the timer case is
    taken. *)
Inductive arrival : Type := send_first | read_first.

Record schedule : Type := mkSchedule {
  order : arrival;
  timeout_at : option nat
}.

(** [for i := 0; i < 2; i++ { select { ... } }]: [Some err] when the
    loop returns [err], [None] when it runs to its end. [errc] holds the
    reports in their order of arrival; when none is left to arrive,
    only the timer case can be taken. *)
Fixpoint await (turns : nat) (i : nat) (errc : list (option error))
    (sch : schedule) : option error :=
  match turns with
  | O => None
  | S turns' =>
      if decide (timeout_at sch = Some i) then Some DiscReadTimeout
      else
        match errc with
        | [] => Some DiscReadTimeout
        | Some err :: _ => Some err
        | None :: errc' => await turns' (S i) errc' sch
        end
  end.

(** The transport in the result is the one left once both goroutines
    have run, also when [Handshake] returned before they did. *)
Definition Handshake (p : Peer) (network : N) (td : option Z)
    (head genesis : common.Hash) (sch : schedule) : Peer * option error :=
  let '(rw1, send_err) :=
    p2p.Send (rw p) StatusMsg
      (data_status {| ProtocolVersion := version p; NetworkId := network; TD := td;
                      CurrentBlock := head; GenesisBlock := genesis |}) in
  let p1 := with_rw p rw1 in
  let '(p2, status, reports) :=
    match readStatus p1 network zero_status genesis with
    | None => (p1, zero_status, [send_err])
    | Some (rw2, status, read_err) =>
        (with_rw p1 rw2, status,
         match order sch with
         | send_first => [send_err; read_err]
         | read_first => [read_err; send_err]
         end)
    end in
  match await 2 0 reports sch with
  | Some err => (p2, Some err)
  | None => (with_head_td p2 (CurrentBlock status) (TD status), None)
  end.

(** *** PeerSet *)

Record PeerSet : Type := mkPeerSet {
  peers : gmap string (option Peer);
  closed : bool
}.

Definition NewPeerSet : PeerSet := {| peers := ∅; closed := false |}.

(** [p] is dereferenced for its [id], so it is taken as a [Peer]. *)
Definition Register (ps : PeerSet) (p : Peer) : PeerSet * option error :=
  if closed ps then (ps, Some errClosed)
  else
    match peers ps !! id p with
    | Some _ => (ps, Some errAlreadyRegistered)
    | None => ({| peers := <[id p := Some p]> (peers ps); closed := closed ps |}, None)
    end.

Definition Unregister (ps : PeerSet) (id : string) : PeerSet * option error :=
  match peers ps !! id with
  | None => (ps, Some errNotRegistered)
  | Some _ => ({| peers := delete id (peers ps); closed := closed ps |}, None)
  end.

(** [ps.peers[id]]: nil for a missing key. *)
Definition PeerSet_Peer (ps : PeerSet) (id : string) : option Peer :=
  match peers ps !! id with
  | Some p => p
  | None => None
  end.

Definition Len (ps : PeerSet) : Z := Z.of_nat (size (peers ps)).

Definition AllPeer (ps : PeerSet) : gmap string (option Peer) := peers ps.

(** [for _, p := range ps.peers] visits the keys in an order of Go's
    choosing: [keys]. The values visited, in that order: *)
Definition visited (ps : PeerSet) (keys : list string) : list (option Peer) :=
  omap (λ k, peers ps !! k) keys.

(** [keys] is an order in which [range] can visit the map. *)
Definition range_order (ps : PeerSet) (keys : list string) : Prop :=
  NoDup keys ∧ ∀ k, k ∈ keys ↔ is_Some (peers ps !! k).

Definition without (known : Peer → set.Set_) (hash : common.Hash)
    (acc : outcome (list Peer)) (p : option Peer) : outcome (list Peer) :=
  list ← acc;
  match p with
  | None => Panic
  | Some q => Ok (if set.Has (known q) hash then list else list ++ [q])
  end.

Definition PeersWithoutBlock (ps : PeerSet) (keys : list string) (hash : common.Hash)
  : outcome (list Peer) :=
  foldl (without knownBlocks hash) (Ok []) (visited ps keys).

Definition PeersWithoutTx (ps : PeerSet) (keys : list string) (hash : common.Hash)
  : outcome (list Peer) :=
  foldl (without knownTxs hash) (Ok []) (visited ps keys).

(** One turn of the loop of [BestPeer] on [(bestPeer, bestTd)]. *)
Definition best_step (acc : outcome (option Peer * option Z)) (p : option Peer)
  : outcome (option Peer * option Z) :=
  '(bestPeer, bestTd) ← acc;
  match p with
  | None => Ok (bestPeer, bestTd)
  | Some q =>
      let td := (Head q).2 in
      match td with
      | None => Ok (bestPeer, bestTd)
      | Some _ =>
          let bestTd := match bestTd with None => td | Some _ => bestTd end in
          match bestPeer with
          | None => Ok (Some q, td)
          | Some _ =>
              c ← big.Cmp td bestTd;
              if big.positive c then Ok (Some q, td) else Ok (bestPeer, bestTd)
          end
      end
  end.

Definition BestPeer (ps : PeerSet) (keys : list string) : outcome (option Peer) :=
  r ← foldl best_step (Ok (None, None)) (visited ps keys);
  Ok r.1.

(** *** The exported operations of a PeerSet as a transition system *)

Inductive op : Type :=
  | op_Register (p : Peer)
  | op_Unregister (id : string)
  | op_Peer (id : string)
  | op_Len
  | op_AllPeer
  | op_PeersWithoutBlock (keys : list string) (hash : common.Hash)
  | op_PeersWithoutTx (keys : list string) (hash : common.Hash)
  | op_BestPeer (keys : list string).

(** The set after a call; the value returned is dropped. The reading
    operations assign to no field; one that panics has no successor. *)
Definition exec (ps : PeerSet) (o : op) : outcome PeerSet :=
  match o with
  | op_Register p => Ok (Register ps p).1
  | op_Unregister id => Ok (Unregister ps id).1
  | op_Peer id => let _ := PeerSet_Peer ps id in Ok ps
  | op_Len => let _ := Len ps in Ok ps
  | op_AllPeer => let _ := AllPeer ps in Ok ps
  | op_PeersWithoutBlock keys hash => _ ← PeersWithoutBlock ps keys hash; Ok ps
  | op_PeersWithoutTx keys hash => _ ← PeersWithoutTx ps keys hash; Ok ps
  | op_BestPeer keys => _ ← BestPeer ps keys; Ok ps
  end.

Inductive reachable : PeerSet → Prop :=
  | reachable_new : reachable NewPeerSet
  | reachable_exec ps o ps' : reachable ps → exec ps o = Ok ps' → reachable ps'.

End ethpeer.

(** ** Package main (main.go): the aggregator *)

Module main.

Definition startBlock : common.Hash :=
  [xdc; x2d; x93; x8e; x4c; xd0; xa1; x49;
   x68; x1e; x9e; x04; x35; x29; x53; xef;
   x5a; xb3; x99; xd5; x9b; xcd; x5b; x03;
   x57; xf6; xc0; x79; x74; x70; xa5; x24].

Definition startTD : Z := 2303762395359969.

Definition genesis : common.Hash :=
  [xd4; xe5; x67; x40; xf8; x76; xae; xf8;
   xc0; x10; xb8; x6a; x40; xd5; xf5; x67;
   x45; xa1; x18; xd0; x90; x6a; x34; xe6;
   x9a; xec; x8c; x0d; xb1; xcb; x8f; xa3].

Definition gversion : N := 63.
Definition gnetworkid : N := 888888.

(** The status packet as the aggregator stores it. [TD] is a
    [*big.Int] and may be nil. *)
Record statusData : Type := mkStatus {
  ProtocolVersion : N;
  NetworkId : N;
  TD : option Z;
  CurrentBlock : common.Hash;
  GenesisBlock : common.Hash
}.

Record bestHeiPeer : Type := mkBestHeiPeer {
  bestHei : N;
  p : option p2p.Peer
}.

(** The fields of [proxy] that the loop of [Start] reads and writes. *)
Record proxy : Type := mkProxy {
  bestState : statusData;
  bestHeiAndPeer : bestHeiPeer;
  bestHeiAndPeer2 : bestHeiPeer;
  bestHeader : types.Header
}.

(** The composite literal of [test2]: fields it does not name hold
    their zero value. *)
Definition test2_proxy : proxy :=
  {| bestState := {| ProtocolVersion := gversion; NetworkId := gnetworkid;
                     TD := Some startTD; CurrentBlock := startBlock;
                     GenesisBlock := genesis |};
     bestHeiAndPeer := {| bestHei := 0; p := None |};
     bestHeiAndPeer2 := {| bestHei := 0; p := None |};
     bestHeader := types.zero_Header |}.

(** What one turn of [select] receives. A receive from a closed channel
    ([ok] false) is [None]. *)
Inductive event : Type :=
  | from_bestHeiChan (hei : option bestHeiPeer)
  | from_bestHeiChan2 (hei : option bestHeiPeer)
  | from_bestStateChan (beststate : option statusData)
  | from_bestHeaderChan (bestheaders : option (list types.Header))
  | tick
  | tickPullBestBlock.

Definition merge_hei (best hei : bestHeiPeer) : bestHeiPeer :=
  if decide (bestHei best < bestHei hei)%N then hei else best.

(** [beststate.TD.Cmp(pxy.bestState.TD) > 0 && ...]: the comparison is
    evaluated first and dereferences both pointers. *)
Definition merge_state (best beststate : statusData) : outcome statusData :=
  c ← big.Cmp (TD beststate) (TD best);
  Ok (if big.positive c
         && bool_decide (common.Hex (GenesisBlock beststate) = common.Hex genesis)
      then beststate else best).

(** One turn of [for _, h := range bestheaders]. *)
Definition merge_header (acc : outcome types.Header) (h : types.Header)
  : outcome types.Header :=
  best ← acc;
  c ← big.Cmp (types.Number h) (types.Number best);
  Ok (if big.positive c then h else best).

Definition merge_headers (best : types.Header) (bestheaders : list types.Header)
  : outcome types.Header :=
  foldl merge_header (Ok best) bestheaders.

(** One turn of the loop of [Start]. The two timer cases start other
    goroutines and leave these fields alone. *)
Definition step (pxy : proxy) (ev : event) : outcome proxy :=
  match ev with
  | from_bestHeiChan (Some hei) =>
      Ok {| bestState := bestState pxy;
            bestHeiAndPeer := merge_hei (bestHeiAndPeer pxy) hei;
            bestHeiAndPeer2 := bestHeiAndPeer2 pxy;
            bestHeader := bestHeader pxy |}
  | from_bestHeiChan2 (Some hei) =>
      Ok {| bestState := bestState pxy;
            bestHeiAndPeer := bestHeiAndPeer pxy;
            bestHeiAndPeer2 := merge_hei (bestHeiAndPeer2 pxy) hei;
            bestHeader := bestHeader pxy |}
  | from_bestStateChan (Some beststate) =>
      best ← merge_state (bestState pxy) beststate;
      Ok {| bestState := best;
            bestHeiAndPeer := bestHeiAndPeer pxy;
            bestHeiAndPeer2 := bestHeiAndPeer2 pxy;
            bestHeader := bestHeader pxy |}
  | from_bestHeaderChan (Some bestheaders) =>
      best ← merge_headers (bestHeader pxy) bestheaders;
      Ok {| bestState := bestState pxy;
            bestHeiAndPeer := bestHeiAndPeer pxy;
            bestHeiAndPeer2 := bestHeiAndPeer2 pxy;
            bestHeader := best |}
  | _ => Ok pxy
  end.

(** The loop on a sequence of events; a panic ends the program. *)
Definition run (pxy : proxy) (evs : list event) : outcome proxy :=
  foldl (λ acc ev, pxy' ← acc; step pxy' ev) (Ok pxy) evs.


(** [pullBestBlock], on the registry in [pxy.ethpeerset]. It asks for the
    best peer, looks it up again in the map of [AllPeer] under the text
    of its node identifier, reads head, difficulty and genesis of the
    entry found and runs [Handshake] on the best peer with them. The
    result is [None] when no handshake is run, and otherwise the best
    peer after the handshake with the error returned; the lines printed
    are left out. *)
Definition pullBestBlock (ethpeerset : ethpeer.PeerSet) (keys : list string)
    (sch : ethpeer.schedule) : outcome (option (ethpeer.Peer * option error)) :=
  bp ← ethpeer.BestPeer ethpeerset keys;
  match bp with
  | None => Ok None
  | Some bp =>
      let all := ethpeer.AllPeer ethpeerset in
      match all !! p2p.ID_String (ethpeer.P bp) with
      | None => Ok None
      | Some None => Panic
      | Some (Some pp) =>
          let '(hash, td) := ethpeer.Head pp in
          let gene := ethpeer.Genesis pp in
          Ok (Some (ethpeer.Handshake bp gnetworkid td hash gene sch))
      end
  end.

End main.

(** ** Sample data *)

Module sample.

(** Pairwise different hashes: the index in the two leading bytes. *)
Definition hash_of (n : nat) : common.Hash :=
  default x00 (Byte.of_nat (n / 256)) :: default x00 (Byte.of_nat (n mod 256))
    :: replicate 30 x00.

Definition hashes (n : nat) : list common.Hash := hash_of <$> seq 0 n.

Definition numbers (n : nat) : list N := N.of_nat <$> seq 0 n.

Definition rw0 : ethpeer.MsgReadWriter :=
  {| p2p.inbound := []; p2p.outbound := []; p2p.write_error := None |}.

Definition node : p2p.Peer := {| p2p.ID := [x0a; x0b] |}.

Definition fresh : ethpeer.Peer := ethpeer.NewPeer 63 node rw0.

(** A status message that declares 11 MiB, and a peer about to read it. *)
Definition oversized : p2p.Msg ethpeer.statusData :=
  {| p2p.Code := 0; p2p.Size := 11 * 1024 * 1024; p2p.Decode := None |}.

Definition reader : ethpeer.Peer :=
  ethpeer.NewPeer 63 node
    {| p2p.inbound := [inr oversized]; p2p.outbound := []; p2p.write_error := None |}.

(** A remote status on the configured network, and a peer about to read
    it. *)
Definition remote_status (genesis : common.Hash) : ethpeer.statusData :=
  {| ethpeer.ProtocolVersion := 63; ethpeer.NetworkId := 888888;
     ethpeer.TD := Some 42%Z; ethpeer.CurrentBlock := hash_of 7;
     ethpeer.GenesisBlock := genesis |}.

Definition dialled (inbound : list (error + p2p.Msg ethpeer.statusData)) : ethpeer.Peer :=
  ethpeer.NewPeer 63 node
    {| p2p.inbound := inbound; p2p.outbound := []; p2p.write_error := None |}.

Definition status_msg (s : ethpeer.statusData) : error + p2p.Msg ethpeer.statusData :=
  inr {| p2p.Code := 0; p2p.Size := 100; p2p.Decode := Some s |}.

Definition in_time : ethpeer.schedule :=
  {| ethpeer.order := ethpeer.read_first; ethpeer.timeout_at := None |}.

(** A registry of four peers, with difficulties 5, 9, 3 and none, and an
    order in which [range] may visit it. *)
Definition peer_named (name : string) (td : option Z) : ethpeer.Peer :=
  {| ethpeer.id := name; ethpeer.genesis := common.zero; ethpeer.P := node;
     ethpeer.rw := rw0; ethpeer.version := 63; ethpeer.head := common.zero;
     ethpeer.td := td; ethpeer.knownTxs := set.New; ethpeer.knownBlocks := set.New |}.

Definition registry : ethpeer.PeerSet :=
  {| ethpeer.peers :=
       <["a" := Some (peer_named "a" (Some 5%Z))]>
         (<["b" := Some (peer_named "b" (Some 9%Z))]>
            (<["c" := Some (peer_named "c" (Some 3%Z))]>
               (<["d" := Some (peer_named "d" None)]> ∅)));
     ethpeer.closed := false |}.

Definition registry_keys : list string := ["c"; "a"; "d"; "b"].

(** Headers and chain states told apart by number and difficulty. *)
Definition header (n : Z) : types.Header :=
  {| types.Number := Some n; types.header_rest := [] |}.

Definition state (td : Z) (genesis : common.Hash) : main.statusData :=
  {| main.ProtocolVersion := 63; main.NetworkId := 888888; main.TD := Some td;
     main.CurrentBlock := common.zero; main.GenesisBlock := genesis |}.

(** Two heights reported on the first height channel, and the proxy of
    [test2] after them. *)
Definition heights : list main.event :=
  [main.from_bestHeiChan (Some {| main.bestHei := 7; main.p := None |});
   main.from_bestHeiChan (Some {| main.bestHei := 5; main.p := None |})].

Definition after_heights : main.proxy :=
  {| main.bestState := main.bestState main.test2_proxy;
     main.bestHeiAndPeer := {| main.bestHei := 7; main.p := None |};
     main.bestHeiAndPeer2 := main.bestHeiAndPeer2 main.test2_proxy;
     main.bestHeader := main.bestHeader main.test2_proxy |}.

(** A second order in which [range] may visit [registry]. *)
Definition registry_keys2 : list string := ["a"; "b"; "c"; "d"].

(** Two registered peers of equal difficulty. *)
Definition ties : ethpeer.PeerSet :=
  {| ethpeer.peers :=
       <["a" := Some (peer_named "a" (Some 9%Z))]>
         (<["b" := Some (peer_named "b" (Some 9%Z))]> ∅);
     ethpeer.closed := false |}.

(** A registry holding one peer fresh from [NewPeer]. *)
Definition registry1 : ethpeer.PeerSet := (ethpeer.Register ethpeer.NewPeerSet fresh).1.

Definition registry1_keys : list string := [ethpeer.id fresh].

End sample.

(** * Properties *)

(** ** Hexadecimal rendering loses nothing *)

Lemma unhex_hex_byte (b : byte) :
  Byte.of_N (common.unhex_digit (common.hex_digit (Byte.to_N b / 16)) * 16
             + common.unhex_digit (common.hex_digit (Byte.to_N b mod 16)))
  = Some b.
Proof. destruct b; vm_compute; reflexivity. Qed.

Lemma unhex_hex_bytes (bs : list byte) :
  common.unhex_bytes (common.hex_bytes bs) = Some <$> bs.
Proof.
  induction bs as [|b bs IH]; [reflexivity|].
  cbn [common.hex_bytes common.unhex_bytes fmap list_fmap].
  rewrite IH. f_equal. apply unhex_hex_byte.
Qed.

Lemma hex_bytes_inj (a b : list byte) :
  common.hex_bytes a = common.hex_bytes b → a = b.
Proof.
  intros E. apply (f_equal common.unhex_bytes) in E.
  rewrite !unhex_hex_bytes in E.
  revert E. apply (inj (fmap Some)).
Qed.

Lemma Hex_eq_iff (a b : common.Hash) : common.Hex a = common.Hex b ↔ a = b.
Proof.
  split; [|congruence].
  unfold common.Hex. intros E. apply hex_bytes_inj. congruence.
Qed.

(** ** The known-hash sets *)

Lemma foldl_Add (l : list common.Hash) (s : set.Set_) :
  foldl set.Add s l = list_to_set l ∪ s.
Proof.
  revert s. induction l as [|x l IH]; intros s; cbn [foldl].
  - unfold_leibniz. set_solver.
  - rewrite IH. unfold set.Add. unfold_leibniz. set_solver.
Qed.

Lemma foldl_Add_tx (txs : list types.Transaction) (s : set.Set_) :
  foldl (λ s tx, set.Add s (types.tx_hash tx)) s txs
  = list_to_set (types.tx_hash <$> txs) ∪ s.
Proof.
  revert s. induction txs as [|x l IH]; intros s; cbn [foldl fmap list_fmap].
  - unfold_leibniz. set_solver.
  - rewrite IH. unfold set.Add. unfold_leibniz. set_solver.
Qed.

Section Pop_facts.

Variable start : set.Set_ → nat.

Lemma Pop_empty (s : set.Set_) : size s = 0 → set.Pop start s = (None, s).
Proof.
  intros Hs. apply size_empty_inv in Hs. unfold set.Pop.
  apply leibniz_equiv in Hs. subst s. by rewrite elements_empty.
Qed.

Lemma Pop_member (s : set.Set_) :
  0 < size s →
  ∃ item, set.Pop start s = (Some item, s ∖ {[item]}) ∧ item ∈ s.
Proof.
  intros Hs. unfold set.Pop, size, set_size in *. cbn in Hs.
  destruct (elements s) as [|x rest] eqn:E; [cbn in Hs; lia|].
  eexists. split; [reflexivity|].
  apply elem_of_elements. rewrite E. apply list_elem_of_In, nth_In.
  cbn [length]. apply Nat.mod_upper_bound. lia.
Qed.

Lemma Pop_size (s : set.Set_) : size (set.Pop start s).2 = pred (size s).
Proof.
  destruct (decide (size s = 0)) as [Hz|Hnz].
  - rewrite Pop_empty by done. cbn. lia.
  - destruct (Pop_member s) as (item & -> & Hin); [lia|]. cbn.
    rewrite size_difference by set_solver. rewrite size_singleton. lia.
Qed.

Lemma Pop_subseteq (s : set.Set_) : (set.Pop start s).2 ⊆ s.
Proof.
  destruct (decide (size s = 0)) as [Hz|Hnz].
  - by rewrite Pop_empty.
  - destruct (Pop_member s) as (item & -> & Hin); [lia|]. cbn. set_solver.
Qed.

(** The eviction loop ends once one test more than the size is allowed,
    leaves fewer than [limit] members, and at capacity removes at least
    one. *)
Lemma drop_known_ends (limit : Z) (fuel : nat) (s : set.Set_) :
  (0 < limit)%Z → size s < fuel →
  ∃ s', ethpeer.drop_known start fuel limit s = Some s' ∧ s' ⊆ s
        ∧ (set.Size s' < limit)%Z
        ∧ ((limit ≤ set.Size s)%Z → size s' < size s)
        ∧ ((set.Size s < limit)%Z → s' = s).
Proof.
  intros Hlim. revert s. induction fuel as [|fuel IH]; intros s Hfuel; [lia|].
  cbn [ethpeer.drop_known]. unfold set.Size in *.
  destruct (decide (limit ≤ Z.of_nat (size s))%Z) as [Hfull|Hroom].
  - pose proof (Pop_size s) as Hp. pose proof (Pop_subseteq s) as Hsub.
    destruct (IH (set.Pop start s).2) as (s' & Hs' & Hsub' & Hlt & Hdec & _); [lia|].
    exists s'. split; [done|]. split; [set_solver|]. split; [done|].
    split; [|lia]. intros _. apply subseteq_size in Hsub'. lia.
  - exists s. split; [done|]. split; [done|]. split; [lia|]. split; [lia|done].
Qed.

End Pop_facts.

(** ** SendNewBlockHashes: filling the request *)

(** After [k] turns the first [k] records are filled and the others still
    hold their zero value. *)
Lemma fill_request_prefix (hashes : list common.Hash) (numbers : list N) (k : nat) :
  k ≤ length hashes → k ≤ length numbers →
  foldl (ethpeer.fill_request hashes numbers)
        (Ok (replicate (length hashes) ethpeer.zero_announce)) (seq 0 k)
  = Ok (zip_with ethpeer.mkAnnounce (take k hashes) (take k numbers)
        ++ replicate (length hashes - k) ethpeer.zero_announce).
Proof.
  induction k as [|k IH]; intros Hh Hn.
  - cbn. by rewrite Nat.sub_0_r.
  - rewrite seq_S, foldl_snoc, IH by lia. cbn [ethpeer.fill_request mbind outcome_bind].
    destruct (lookup_lt_is_Some_2 hashes k) as [h Hk]; [lia|].
    destruct (lookup_lt_is_Some_2 numbers k) as [n Hk']; [lia|].
    cbn [plus]. rewrite Hk, Hk'. f_equal.
    rewrite (take_S_r _ _ _ Hk), (take_S_r _ _ _ Hk').
    rewrite zip_with_app by (rewrite !length_take; lia).
    replace (length hashes - k) with (S (length hashes - S k)) by lia.
    cbn [replicate zip_with].
    assert (length (zip_with ethpeer.mkAnnounce (take k hashes) (take k numbers)) = k) as Hlen.
    { rewrite length_zip_with, !length_take. lia. }
    rewrite <- (assoc_L (++)). cbn [app].
    rewrite !alter_app_r_alt by lia. rewrite Hlen, Nat.sub_diag. reflexivity.
Qed.

Lemma fill_request_Panic (hashes : list common.Hash) (numbers : list N) (l : list nat) :
  foldl (ethpeer.fill_request hashes numbers) Panic l = Panic.
Proof. induction l as [|i l IH]; [reflexivity|]. exact IH. Qed.

Lemma fill_request_total (hashes : list common.Hash) (numbers : list N) :
  length hashes ≤ length numbers →
  foldl (ethpeer.fill_request hashes numbers)
        (Ok (replicate (length hashes) ethpeer.zero_announce)) (seq 0 (length hashes))
  = Ok (zip_with ethpeer.mkAnnounce hashes numbers).
Proof.
  intros Hlen. rewrite fill_request_prefix by lia.
  rewrite Nat.sub_diag, app_nil_r, firstn_all. cbn [replicate].
  by rewrite zip_with_take_r by lia.
Qed.

Lemma fill_request_short (hashes : list common.Hash) (numbers : list N) :
  length numbers < length hashes →
  foldl (ethpeer.fill_request hashes numbers)
        (Ok (replicate (length hashes) ethpeer.zero_announce)) (seq 0 (length hashes))
  = Panic.
Proof.
  intros Hlen.
  replace (length hashes)
    with (length numbers + S (length hashes - S (length numbers))) at 2 by lia.
  rewrite seq_app, foldl_app, fill_request_prefix by lia.
  cbn [seq foldl plus ethpeer.fill_request mbind outcome_bind].
  destruct (lookup_lt_is_Some_2 hashes (length numbers)) as [h ->]; [lia|].
  rewrite (lookup_ge_None_2 numbers) by lia.
  apply fill_request_Panic.
Qed.

Lemma sample_hashes_NoDup : NoDup (sample.hashes 1025).
Proof. apply (bool_decide_unpack _). vm_compute. reflexivity. Qed.

Section Mark_facts.

Variable start : set.Set_ → nat.

(** [MarkBlock] always returns, keeps [knownBlocks] within its limit,
    and at capacity drops a member before it adds the hash. *)
Lemma MarkBlock_bounded (p : ethpeer.Peer) (hash : common.Hash) :
  ∃ s, ethpeer.MarkBlock start p hash
       = Some (ethpeer.with_knownBlocks p (set.Add s hash))
     ∧ s ⊆ ethpeer.knownBlocks p
     ∧ (set.Size s < ethpeer.maxKnownBlocks)%Z
     ∧ (set.Size (set.Add s hash) ≤ ethpeer.maxKnownBlocks)%Z
     ∧ ((ethpeer.maxKnownBlocks ≤ set.Size (ethpeer.knownBlocks p))%Z →
        size s < size (ethpeer.knownBlocks p)).
Proof.
  destruct (drop_known_ends start ethpeer.maxKnownBlocks
              (S (size (ethpeer.knownBlocks p))) (ethpeer.knownBlocks p))
    as (s & Hs & Hsub & Hlt & Hdec & _); [done|lia|].
  exists s. unfold ethpeer.MarkBlock. rewrite Hs. cbn.
  repeat split; try done.
  unfold set.Size, set.Add in *. rewrite size_union_alt, size_singleton.
  assert (size (s ∖ {[hash]}) ≤ size s) by (apply subseteq_size; set_solver).
  lia.
Qed.

Lemma MarkTransaction_bounded (p : ethpeer.Peer) (hash : common.Hash) :
  ∃ s, ethpeer.MarkTransaction start p hash
       = Some (ethpeer.with_knownTxs p (set.Add s hash))
     ∧ s ⊆ ethpeer.knownTxs p
     ∧ (set.Size s < ethpeer.maxKnownTxs)%Z
     ∧ (set.Size (set.Add s hash) ≤ ethpeer.maxKnownTxs)%Z
     ∧ ((ethpeer.maxKnownTxs ≤ set.Size (ethpeer.knownTxs p))%Z →
        size s < size (ethpeer.knownTxs p)).
Proof.
  destruct (drop_known_ends start ethpeer.maxKnownTxs
              (S (size (ethpeer.knownTxs p))) (ethpeer.knownTxs p))
    as (s & Hs & Hsub & Hlt & Hdec & _); [done|lia|].
  exists s. unfold ethpeer.MarkTransaction. rewrite Hs. cbn.
  repeat split; try done.
  unfold set.Size, set.Add in *. rewrite size_union_alt, size_singleton.
  assert (size (s ∖ {[hash]}) ≤ size s) by (apply subseteq_size; set_solver).
  lia.
Qed.

End Mark_facts.

(** The sending operations only add: every hash known before is still
    known, and a new block grows [knownBlocks] by one whatever its size. *)
Lemma Send_paths_only_add (p : ethpeer.Peer) (txs : list types.Transaction)
    (block : types.Block) (td : option Z) :
  ethpeer.knownTxs p ⊆ ethpeer.knownTxs (ethpeer.SendTransactions p txs).1
  ∧ ethpeer.knownBlocks p ⊆ ethpeer.knownBlocks (ethpeer.SendNewBlock p block td).1
  ∧ (types.block_hash block ∉ ethpeer.knownBlocks p →
     set.Size (ethpeer.knownBlocks (ethpeer.SendNewBlock p block td).1)
     = (set.Size (ethpeer.knownBlocks p) + 1)%Z).
Proof.
  unfold ethpeer.SendTransactions, ethpeer.SendNewBlock.
  do 2 destruct (p2p.Send _ _ _) as [? ?]. cbn.
  rewrite foldl_Add_tx. unfold set.Add, set.Size.
  split; [set_solver|]. split; [set_solver|].
  intros Hnew. rewrite size_union by set_solver. rewrite size_singleton. lia.
Qed.

(** C1. The caches are bounded only on the marking path. The sending
    operations add to them without the eviction loop: announcing 1025
    distinct block hashes to a peer fresh from [NewPeer] returns normally
    and leaves 1025 hashes in [knownBlocks], above [maxKnownBlocks]. *)
Theorem SendNewBlockHashes_exceeds_maxKnownBlocks :
  ∃ p' err,
    ethpeer.SendNewBlockHashes sample.fresh (sample.hashes 1025) (sample.numbers 1025)
      = Ok (p', err)
    ∧ set.Size (ethpeer.knownBlocks sample.fresh) = 0%Z
    ∧ set.Size (ethpeer.knownBlocks p') = 1025%Z
    ∧ (ethpeer.maxKnownBlocks < set.Size (ethpeer.knownBlocks p'))%Z.
Proof.
  unfold ethpeer.SendNewBlockHashes.
  rewrite fill_request_total
    by (unfold sample.hashes, sample.numbers; rewrite !length_fmap; done).
  cbn [mbind outcome_bind].
  destruct (p2p.Send _ _ _) as [rw' err] eqn:E. clear E.
  eexists _, _. split; [reflexivity|].
  cbn [ethpeer.with_rw ethpeer.with_knownBlocks ethpeer.knownBlocks].
  assert (set.Size (foldl set.Add (ethpeer.knownBlocks sample.fresh) (sample.hashes 1025))
          = 1025%Z) as Hsize.
  { rewrite foldl_Add. cbn [sample.fresh ethpeer.NewPeer ethpeer.knownBlocks].
    unfold set.Size, set.New. rewrite (right_id_L ∅ (∪)).
    rewrite size_list_to_set by apply sample_hashes_NoDup.
    unfold sample.hashes. rewrite length_fmap, length_seq. reflexivity. }
  split; [reflexivity|]. split; [exact Hsize|].
  rewrite Hsize. reflexivity.
Qed.

(** C9. With at least as many numbers as hashes, [SendNewBlockHashes]
    does not panic and hands to [Send] the records that pair [hashes[i]]
    with [numbers[i]] for every [i] below [len(hashes)]; with fewer
    numbers than hashes it panics on the index into [numbers]. *)
Theorem SendNewBlockHashes_indexing
    (p : ethpeer.Peer) (hashes : list common.Hash) (numbers : list N) :
  let p1 := ethpeer.with_knownBlocks p (foldl set.Add (ethpeer.knownBlocks p) hashes) in
  let request := zip_with ethpeer.mkAnnounce hashes numbers in
  let sent := p2p.Send (ethpeer.rw p1) ethpeer.NewBlockHashesMsg
                (ethpeer.data_newBlockHashes request) in
  (length hashes ≤ length numbers →
     ethpeer.SendNewBlockHashes p hashes numbers = Ok (ethpeer.with_rw p1 sent.1, sent.2)
     ∧ length request = length hashes
     ∧ ∀ i h, hashes !! i = Some h →
         ∃ n, numbers !! i = Some n
              ∧ request !! i = Some {| ethpeer.Hash := h; ethpeer.Number := n |})
  ∧ (length numbers < length hashes →
     ethpeer.SendNewBlockHashes p hashes numbers = Panic).
Proof.
  intros p1 request sent. split.
  - intros Hlen. split; [|split].
    + unfold ethpeer.SendNewBlockHashes. rewrite fill_request_total by done.
      cbn [mbind outcome_bind]. fold p1 request sent. by destruct sent.
    + unfold request. rewrite length_zip_with. lia.
    + intros i h Hi.
      destruct (lookup_lt_is_Some_2 numbers i) as [n Hn].
      { apply lookup_lt_Some in Hi. lia. }
      exists n. split; [done|]. unfold request.
      rewrite lookup_zip_with, Hi. cbn. by rewrite Hn.
  - intros Hlen. unfold ethpeer.SendNewBlockHashes.
    by rewrite fill_request_short.
Qed.

(** ** The handshake *)

(** C3. For a message read during a handshake the checks of [readStatus]
    are tried in a fixed order and the first that fails gives the error:
    message code, declared size against 10 MiB, decoding, genesis hash,
    network id, protocol version; a status that passes them all gives no
    error. *)
Theorem readStatus_validation_order
    (p : ethpeer.Peer) (network : N) (status : ethpeer.statusData)
    (genesis : common.Hash) (msg : p2p.Msg ethpeer.statusData)
    (rest : list (error + p2p.Msg ethpeer.statusData)) :
  p2p.inbound (ethpeer.rw p) = inr msg :: rest →
  let returns (err : option error) :=
    ∃ rw' status', ethpeer.readStatus p network status genesis = Some (rw', status', err) in
  let code_ok := p2p.Code msg = ethpeer.StatusMsg in
  let size_ok := (p2p.Size msg ≤ 10 * 1024 * 1024)%N in
  (¬ code_ok → returns (Some (ethpeer.errResp ethpeer.ErrNoStatusMsg)))
  ∧ (code_ok → ¬ size_ok → returns (Some (ethpeer.errResp ethpeer.ErrMsgTooLarge)))
  ∧ (code_ok → size_ok → p2p.Decode msg = None →
       returns (Some (ethpeer.errResp ethpeer.ErrDecode)))
  ∧ (∀ received, code_ok → size_ok → p2p.Decode msg = Some received →
       let genesis_ok := ethpeer.GenesisBlock received = genesis in
       let network_ok := ethpeer.NetworkId received = network in
       let version_ok := ethpeer.ProtocolVersion received = ethpeer.version p in
       (¬ genesis_ok → returns (Some (ethpeer.errResp ethpeer.ErrGenesisBlockMismatch)))
       ∧ (genesis_ok → ¬ network_ok →
            returns (Some (ethpeer.errResp ethpeer.ErrNetworkIdMismatch)))
       ∧ (genesis_ok → network_ok → ¬ version_ok →
            returns (Some (ethpeer.errResp ethpeer.ErrProtocolVersionMismatch)))
       ∧ (genesis_ok → network_ok → version_ok → returns None)).
Proof.
  intros Hin returns code_ok size_ok. subst returns code_ok size_ok. cbv beta.
  unfold ethpeer.readStatus, p2p.ReadMsg. rewrite Hin.
  change (10 * 1024 * 1024)%N with ethpeer.ProtocolMaxMsgSize.
  repeat split; intros; repeat case_decide; try lia; try done;
    repeat match goal with
           | H : p2p.Decode msg = _ |- _ => rewrite H
           end;
    repeat case_decide; try done; eauto.
Qed.

Lemma readStatus_validation_order_witness :
  ∃ rw' status',
    ethpeer.readStatus sample.reader 1 ethpeer.zero_status main.genesis
    = Some (rw', status', Some (ethpeer.errResp ethpeer.ErrMsgTooLarge)).
Proof.
  refine (proj1 (proj2 (readStatus_validation_order sample.reader 1 ethpeer.zero_status
                          main.genesis sample.oversized [] eq_refl)) _ _).
  - reflexivity.
  - vm_compute. intros H. apply H. reflexivity.
Defined.

(** Whatever the reader reports, a failed report makes the wait loop
    return an error. *)
Lemma await_two_None (a b : option error) (sch : ethpeer.schedule) :
  ethpeer.await 2 0 [a; b] sch = None → a = None ∧ b = None.
Proof.
  destruct a, b; cbn; repeat case_decide; done.
Qed.

Lemma await_one_Some (a : option error) (sch : ethpeer.schedule) :
  ethpeer.await 2 0 [a] sch ≠ None.
Proof. destruct a; cbn; repeat case_decide; done. Qed.

(** C4. [Handshake] stores the head and total difficulty of the received
    status exactly when it returns no error, and then that status has
    passed every check; when it returns an error, a genesis mismatch
    included, the peer's head and total difficulty are what they were. *)
Theorem Handshake_sets_head_td_on_success_only
    (p : ethpeer.Peer) (network : N) (td : option Z)
    (head genesis : common.Hash) (sch : ethpeer.schedule) :
  let result := ethpeer.Handshake p network td head genesis sch in
  (result.2 = None →
     ∃ msg rest received,
       p2p.inbound (ethpeer.rw p) = inr msg :: rest
       ∧ p2p.Decode msg = Some received
       ∧ ethpeer.GenesisBlock received = genesis
       ∧ ethpeer.NetworkId received = network
       ∧ ethpeer.ProtocolVersion received = ethpeer.version p
       ∧ ethpeer.td result.1 = ethpeer.TD received
       ∧ ethpeer.head result.1 = ethpeer.CurrentBlock received)
  ∧ (result.2 ≠ None →
     ethpeer.td result.1 = ethpeer.td p ∧ ethpeer.head result.1 = ethpeer.head p).
Proof.
  cbv zeta. unfold ethpeer.Handshake.
  destruct (p2p.Send _ _ _) as [rw1 send_err] eqn:Esend.
  assert (p2p.inbound rw1 = p2p.inbound (ethpeer.rw p)) as Hin.
  { unfold p2p.Send in Esend. destruct (p2p.write_error _); by inversion Esend. }
  destruct (ethpeer.readStatus _ _ _ _) as [[[rw2 status] read_err]|] eqn:Eread.
  - destruct (ethpeer.await 2 0 _ sch) as [err|] eqn:Eawait; cbn.
    { split; [done|]. by intros _. }
    split; [intros _|done].
    assert (read_err = None) as ->.
    { destruct (ethpeer.order sch); apply await_two_None in Eawait; tauto. }
    unfold ethpeer.readStatus, p2p.ReadMsg in Eread. cbn in Eread. rewrite Hin in Eread.
    destruct (p2p.inbound (ethpeer.rw p)) as [|[e|msg] rest]; [done|by inversion Eread|].
    repeat case_decide; try (by inversion Eread).
    destruct (p2p.Decode msg) as [received|] eqn:Edec; [|by inversion Eread].
    repeat case_decide; try (by inversion Eread).
    inversion Eread; subst. exists msg, rest, status. by repeat split.
  - destruct (ethpeer.await 2 0 _ sch) as [err|] eqn:Eawait; cbn.
    { split; [done|]. by intros _. }
    by apply await_one_Some in Eawait.
Qed.

(** A status that passes the checks is stored. *)
Example Handshake_success :
  let result :=
    ethpeer.Handshake (sample.dialled [sample.status_msg (sample.remote_status main.genesis)])
      888888 (Some 0%Z) common.zero main.genesis sample.in_time in
  result.2 = None
  ∧ ethpeer.td result.1 = Some 42%Z
  ∧ ethpeer.head result.1 = sample.hash_of 7.
Proof. vm_compute. repeat split. Qed.

(** A status on another genesis is refused and nothing is stored. *)
Example Handshake_genesis_mismatch :
  let result :=
    ethpeer.Handshake (sample.dialled [sample.status_msg (sample.remote_status common.zero)])
      888888 (Some 0%Z) common.zero main.genesis sample.in_time in
  result.2 = Some (ethpeer.errResp ethpeer.ErrGenesisBlockMismatch)
  ∧ ethpeer.td result.1 = Some 0%Z
  ∧ ethpeer.head result.1 = common.zero.
Proof. vm_compute. repeat split. Qed.

(** With nothing to read the timer ends the handshake. *)
Example Handshake_timeout :
  (ethpeer.Handshake (sample.dialled []) 888888 (Some 0%Z) common.zero main.genesis
     sample.in_time).2
  = Some DiscReadTimeout.
Proof. reflexivity. Qed.

(** ** The peer and the registry *)

(** [Head] is a copy of the stored pair. *)
Lemma Head_stored (p : ethpeer.Peer) :
  ethpeer.Head p = (ethpeer.head p, ethpeer.td p).
Proof. unfold ethpeer.Head. by destruct (ethpeer.td p). Qed.

(** C6, as the code has it. [Head] returns a null total difficulty
    exactly when the stored pointer is nil and the stored value
    otherwise; [NewPeer] stores the integer 0, so on a peer fresh from
    [NewPeer] it returns the zero hash and 0. *)
Theorem Head_null_iff_td_nil (p : ethpeer.Peer) :
  (ethpeer.Head p).2 = ethpeer.td p
  ∧ ((ethpeer.Head p).2 = None ↔ ethpeer.td p = None)
  ∧ ∀ version node rw,
      ethpeer.Head (ethpeer.NewPeer version node rw) = (common.zero, Some 0%Z).
Proof. rewrite Head_stored. by repeat split. Qed.

(** C6, as stated, fails: the total difficulty that [Head] returns on a
    peer on which nothing was recorded since [NewPeer] is not null. *)
Lemma Head_of_NewPeer_not_null :
  ¬ (∀ version node rw,
       (ethpeer.Head (ethpeer.NewPeer version node rw)).2 = None).
Proof. intros H. specialize (H 63%N sample.node sample.rw0). discriminate H. Qed.

(** C7. [Register] fails with [errClosed] on a closed set, with
    [errAlreadyRegistered] when the identity is present, and inserts
    otherwise; [Unregister] fails with [errNotRegistered] when the
    identity is absent and removes the entry otherwise; after [Register]
    then [Unregister] of one identity, [Peer] returns nil for it; a
    failing call leaves the set as it was. *)
Theorem Register_Unregister_spec (ps : ethpeer.PeerSet) (p : ethpeer.Peer) (k : string) :
  (ethpeer.closed ps = true → ethpeer.Register ps p = (ps, Some ethpeer.errClosed))
  ∧ (ethpeer.closed ps = false → is_Some (ethpeer.peers ps !! ethpeer.id p) →
       ethpeer.Register ps p = (ps, Some ethpeer.errAlreadyRegistered))
  ∧ (ethpeer.closed ps = false → ethpeer.peers ps !! ethpeer.id p = None →
       (ethpeer.Register ps p).2 = None
       ∧ ethpeer.peers (ethpeer.Register ps p).1
         = <[ethpeer.id p := Some p]> (ethpeer.peers ps)
       ∧ ethpeer.closed (ethpeer.Register ps p).1 = ethpeer.closed ps
       ∧ ethpeer.PeerSet_Peer (ethpeer.Register ps p).1 (ethpeer.id p) = Some p)
  ∧ (ethpeer.peers ps !! k = None →
       ethpeer.Unregister ps k = (ps, Some ethpeer.errNotRegistered))
  ∧ (is_Some (ethpeer.peers ps !! k) →
       (ethpeer.Unregister ps k).2 = None
       ∧ ethpeer.peers (ethpeer.Unregister ps k).1 = delete k (ethpeer.peers ps)
       ∧ ethpeer.closed (ethpeer.Unregister ps k).1 = ethpeer.closed ps)
  ∧ ethpeer.PeerSet_Peer
      (ethpeer.Unregister (ethpeer.Register ps p).1 (ethpeer.id p)).1 (ethpeer.id p) = None
  ∧ ((ethpeer.Register ps p).2 ≠ None → (ethpeer.Register ps p).1 = ps)
  ∧ ((ethpeer.Unregister ps k).2 ≠ None → (ethpeer.Unregister ps k).1 = ps).
Proof.
  unfold ethpeer.Register, ethpeer.Unregister, ethpeer.PeerSet_Peer.
  destruct (ethpeer.closed ps) eqn:Hc;
    destruct (ethpeer.peers ps !! ethpeer.id p) as [q|] eqn:Hp;
    destruct (ethpeer.peers ps !! k) as [q'|] eqn:Hk;
    cbn; rewrite ?Hp, ?lookup_insert_eq, ?lookup_delete_eq; cbn;
    rewrite ?lookup_delete_eq;
    repeat apply conj; intros; try done;
    try match goal with H : is_Some None |- _ => by destruct H end;
    by rewrite Hp.
Qed.

(** C10. In every state reached from [NewPeerSet] by the exported
    operations the closed flag is false, and [Register] does not return
    [errClosed] there. *)
Theorem closed_never_set (ps : ethpeer.PeerSet) :
  ethpeer.reachable ps →
  ethpeer.closed ps = false
  ∧ ∀ p, (ethpeer.Register ps p).2 ≠ Some ethpeer.errClosed.
Proof.
  intros Hr.
  assert (ethpeer.closed ps = false) as Hc.
  { induction Hr as [|ps o ps' Hr IH Hexec]; [reflexivity|].
    destruct o; cbn in Hexec;
      try (destruct (ethpeer.PeersWithoutBlock _ _ _); cbn in Hexec);
      try (destruct (ethpeer.PeersWithoutTx _ _ _); cbn in Hexec);
      try (destruct (ethpeer.BestPeer _ _); cbn in Hexec);
      inversion Hexec; subst; try done.
    - unfold ethpeer.Register. rewrite IH.
      by destruct (ethpeer.peers ps !! ethpeer.id p).
    - unfold ethpeer.Unregister. by destruct (ethpeer.peers ps !! id). }
  split; [done|]. intros p. unfold ethpeer.Register. rewrite Hc.
  by destruct (ethpeer.peers ps !! ethpeer.id p).
Qed.

Lemma closed_never_set_witness :
  ethpeer.closed (ethpeer.Register ethpeer.NewPeerSet sample.fresh).1 = false
  ∧ ∀ p, (ethpeer.Register (ethpeer.Register ethpeer.NewPeerSet sample.fresh).1 p).2
         ≠ Some ethpeer.errClosed.
Proof.
  apply closed_never_set.
  apply (ethpeer.reachable_exec ethpeer.NewPeerSet (ethpeer.op_Register sample.fresh)).
  - apply ethpeer.reachable_new.
  - reflexivity.
Defined.

(** ** BestPeer *)

(** The loop of [BestPeer] over the values in the order visited: it does
    not panic; it ends with no peer when every value is nil or has a nil
    difficulty, and otherwise with the first value that carries the
    greatest difficulty. *)
Lemma best_scan (l : list (option ethpeer.Peer)) :
  ∃ bestPeer bestTd,
    foldl ethpeer.best_step (Ok (None, None)) l = Ok (bestPeer, bestTd)
    ∧ match bestPeer with
      | None =>
          bestTd = None
          ∧ ∀ j q, l !! j = Some (Some q) → (ethpeer.Head q).2 = None
      | Some b =>
          ∃ i t, l !! i = Some (Some b) ∧ bestTd = Some t
                 ∧ (ethpeer.Head b).2 = Some t
                 ∧ ∀ j q tq, l !! j = Some (Some q) → (ethpeer.Head q).2 = Some tq →
                     (tq ≤ t)%Z ∧ (j < i → (tq < t)%Z)
      end.
Proof.
  induction l as [|x l IH] using rev_ind.
  - exists None, None. split; [reflexivity|]. split; [reflexivity|].
    intros j q Hj. by rewrite lookup_nil in Hj.
  - destruct IH as (bp & bt & Hfold & Hinv).
    rewrite foldl_snoc, Hfold. cbn [ethpeer.best_step mbind outcome_bind].
    assert (∀ j (y : option ethpeer.Peer), (l ++ [x]) !! j = Some y →
              (j < length l ∧ l !! j = Some y) ∨ (j = length l ∧ y = x)) as Hsnoc.
    { intros j y Hj. destruct (decide (j < length l)) as [Hlt|Hge].
      - left. by rewrite lookup_app_l in Hj.
      - right. rewrite lookup_app_r in Hj by lia.
        apply list_lookup_singleton_Some in Hj as [Hj ->]. split; [lia|done]. }
    destruct x as [q|]; cbn.
    2:{ exists bp, bt. split; [reflexivity|]. destruct bp as [b|].
        - destruct Hinv as (i & t & Hi & Hbt & Hb & Hmax).
          exists i, t. split; [by apply lookup_app_l_Some|]. split; [done|]. split; [done|].
          intros j q' tq Hj Hq. destruct (Hsnoc _ _ Hj) as [[_ Hl]|[_ ?]]; [eauto|done].
        - destruct Hinv as [Hbt Hnull]. split; [done|].
          intros j q' Hj. destruct (Hsnoc _ _ Hj) as [[_ Hl]|[_ ?]]; [eauto|done]. }
    destruct ((ethpeer.Head q).2) as [tq|] eqn:Hq.
    2:{ exists bp, bt. split; [reflexivity|]. destruct bp as [b|].
        - destruct Hinv as (i & t & Hi & Hbt & Hb & Hmax).
          exists i, t. split; [by apply lookup_app_l_Some|]. split; [done|]. split; [done|].
          intros j q' tq Hj Hq'. destruct (Hsnoc _ _ Hj) as [[_ Hl]|[_ ?]]; [eauto|].
          congruence.
        - destruct Hinv as [Hbt Hnull]. split; [done|].
          intros j q' Hj. destruct (Hsnoc _ _ Hj) as [[_ Hl]|[_ ?]]; [eauto|].
          congruence. }
    destruct bp as [b|].
    + destruct Hinv as (i & t & Hi & -> & Hb & Hmax).
      pose proof (lookup_lt_Some _ _ _ Hi) as Hilt.
      cbn [big.Cmp mbind outcome_bind]. unfold big.cmp.
      destruct (Z.compare_spec tq t) as [Heq|Hlt|Hgt]; cbn [big.positive].
      * exists (Some b), (Some t). split; [reflexivity|].
        exists i, t. split; [by apply lookup_app_l_Some|]. split; [done|]. split; [done|].
        intros j q' tq' Hj Hq'. destruct (Hsnoc _ _ Hj) as [[_ Hl]|[-> ?]]; [eauto|].
        assert (tq' = tq) by congruence. lia.
      * exists (Some b), (Some t). split; [reflexivity|].
        exists i, t. split; [by apply lookup_app_l_Some|]. split; [done|]. split; [done|].
        intros j q' tq' Hj Hq'. destruct (Hsnoc _ _ Hj) as [[_ Hl]|[-> ?]]; [eauto|].
        assert (tq' = tq) by congruence. lia.
      * exists (Some q), (Some tq). split; [reflexivity|].
        exists (length l), tq.
        split; [by rewrite lookup_app_r, Nat.sub_diag by lia|]. split; [done|]. split; [done|].
        intros j q' tq' Hj Hq'. destruct (Hsnoc _ _ Hj) as [[_ Hl]|[-> ?]].
        -- destruct (Hmax _ _ _ Hl Hq'). lia.
        -- assert (tq' = tq) by congruence. lia.
    + destruct Hinv as [-> Hnull].
      exists (Some q), (Some tq). split; [reflexivity|].
      exists (length l), tq.
      split; [by rewrite lookup_app_r, Nat.sub_diag by lia|]. split; [done|]. split; [done|].
      intros j q' tq' Hj Hq'. destruct (Hsnoc _ _ Hj) as [[_ Hl]|[-> ?]].
      * rewrite (Hnull _ _ Hl) in Hq'. done.
      * assert (tq' = tq) by congruence. lia.
Qed.

(** When every key is in the map, [range] visits one value per key. *)
Lemma visited_lookup (ps : ethpeer.PeerSet) (keys : list string) (j : nat) :
  (∀ k, k ∈ keys → is_Some (ethpeer.peers ps !! k)) →
  ethpeer.visited ps keys !! j = keys !! j ≫= (λ k, ethpeer.peers ps !! k).
Proof.
  unfold ethpeer.visited. revert j. induction keys as [|k keys IH]; intros j Hall.
  - by rewrite !lookup_nil.
  - destruct (Hall k) as [v Hv]; [set_solver|]. cbn [omap list_omap]. rewrite Hv.
    destruct j as [|j]; cbn; [done|]. apply IH. intros k' Hk'. apply Hall. set_solver.
Qed.

(** C5, as the code has it. For every order in which the map is
    visited, [BestPeer] does not panic. It returns nil exactly when the
    set is empty or every registered peer has a nil difficulty.
    Otherwise it returns a registered peer with a difficulty that no
    registered peer exceeds, greater than that of every peer visited
    before it (among equals the first visited is kept, so the choice
    among them follows the order of the visit) and greater than that of
    every other peer whose difficulty differs from it. *)
Theorem BestPeer_first_maximum (ps : ethpeer.PeerSet) (keys : list string) :
  ethpeer.range_order ps keys →
  ∃ r, ethpeer.BestPeer ps keys = Ok r
    ∧ (r = None ↔
       ∀ k q, ethpeer.peers ps !! k = Some (Some q) → (ethpeer.Head q).2 = None)
    ∧ ∀ b, r = Some b →
        ∃ i kb tb,
          keys !! i = Some kb ∧ ethpeer.peers ps !! kb = Some (Some b)
          ∧ (ethpeer.Head b).2 = Some tb
          ∧ ∀ j k q tq,
              keys !! j = Some k → ethpeer.peers ps !! k = Some (Some q) →
              (ethpeer.Head q).2 = Some tq →
              (tq ≤ tb)%Z ∧ (j < i → (tq < tb)%Z) ∧ (tq ≠ tb → (tq < tb)%Z).
Proof.
  intros [Hnodup Hkeys].
  assert (∀ j, ethpeer.visited ps keys !! j = keys !! j ≫= (λ k, ethpeer.peers ps !! k))
    as Hvis.
  { intros j. apply visited_lookup. intros k Hk. by apply Hkeys. }
  destruct (best_scan (ethpeer.visited ps keys)) as (bp & bt & Hfold & Hinv).
  exists bp. unfold ethpeer.BestPeer. rewrite Hfold. split; [reflexivity|].
  destruct bp as [b|].
  - destruct Hinv as (i & t & Hi & _ & Hb & Hmax).
    rewrite Hvis in Hi. destruct (keys !! i) as [kb|] eqn:Hkb; [|done]. cbn in Hi.
    split.
    + split; [done|]. intros Hnull. rewrite (Hnull _ _ Hi) in Hb. done.
    + intros b' [= <-]. exists i, kb, t. split; [done|]. split; [done|]. split; [done|].
      intros j k q tq Hj Hk Hq.
      destruct (Hmax j q tq) as [Hle Hlt]; [by rewrite Hvis, Hj|done|].
      repeat split; [done|done|lia].
  - destruct Hinv as [_ Hnull]. split; [|done].
    split; [|done]. intros _ k q Hk.
    assert (k ∈ keys) as Hin by (apply Hkeys; eauto).
    apply list_elem_of_lookup in Hin as [j Hj].
    apply (Hnull j). by rewrite Hvis, Hj.
Qed.

Lemma sample_registry_order : ethpeer.range_order sample.registry sample.registry_keys.
Proof.
  split.
  - apply (bool_decide_unpack _). vm_compute. reflexivity.
  - intros k. rewrite <- elem_of_dom.
    assert (dom (ethpeer.peers sample.registry)
            = list_to_set (C := gset string) sample.registry_keys) as ->
      by (vm_compute; reflexivity).
    by rewrite elem_of_list_to_set.
Qed.

Lemma BestPeer_first_maximum_witness :
  ethpeer.range_order sample.registry sample.registry_keys
  ∧ ∃ r, ethpeer.BestPeer sample.registry sample.registry_keys = Ok r.
Proof.
  split; [exact sample_registry_order|].
  destruct (BestPeer_first_maximum sample.registry sample.registry_keys
              sample_registry_order) as (r & Hr & _).
  exists r. exact Hr.
Defined.

(** Over difficulties 5, 9 and 3 and a peer without one, the peer with 9
    is returned. *)
Example BestPeer_5_9_3 :
  ethpeer.BestPeer sample.registry sample.registry_keys
  = Ok (Some (sample.peer_named "b" (Some 9%Z))).
Proof. vm_compute. reflexivity. Qed.

Lemma sample_ties_orders :
  ethpeer.range_order sample.ties ["a"; "b"] ∧ ethpeer.range_order sample.ties ["b"; "a"].
Proof.
  split; (split; [apply (bool_decide_unpack _); vm_compute; reflexivity|]);
    intros k; rewrite <- elem_of_dom.
  - assert (dom (ethpeer.peers sample.ties) = list_to_set (C := gset string) ["a"; "b"]) as ->
      by (vm_compute; reflexivity).
    by rewrite elem_of_list_to_set.
  - assert (dom (ethpeer.peers sample.ties) = list_to_set (C := gset string) ["b"; "a"]) as ->
      by (vm_compute; reflexivity).
    by rewrite elem_of_list_to_set.
Qed.

(** C5, as stated, fails on a tie. With two registered peers of
    difficulty 9 the peer returned is not strictly greater than the
    other one, and it is the one the map iteration yields first: the two
    orders in which the map can be visited give two different peers. *)
Lemma BestPeer_tie_follows_map_order :
  ethpeer.range_order sample.ties ["a"; "b"]
  ∧ ethpeer.range_order sample.ties ["b"; "a"]
  ∧ ethpeer.BestPeer sample.ties ["a"; "b"] = Ok (Some (sample.peer_named "a" (Some 9%Z)))
  ∧ ethpeer.BestPeer sample.ties ["b"; "a"] = Ok (Some (sample.peer_named "b" (Some 9%Z)))
  ∧ sample.peer_named "a" (Some 9%Z) ≠ sample.peer_named "b" (Some 9%Z)
  ∧ ethpeer.peers sample.ties !! "b" = Some (Some (sample.peer_named "b" (Some 9%Z)))
  ∧ (ethpeer.Head (sample.peer_named "a" (Some 9%Z))).2 = Some 9%Z
  ∧ (ethpeer.Head (sample.peer_named "b" (Some 9%Z))).2 = Some 9%Z
  ∧ ¬ (9 < 9)%Z.
Proof.
  destruct sample_ties_orders as [Hab Hba].
  split; [exact Hab|]. split; [exact Hba|].
  split; [vm_compute; reflexivity|]. split; [vm_compute; reflexivity|].
  split; [intros H; apply (f_equal ethpeer.id) in H; discriminate H|].
  split; [vm_compute; reflexivity|]. split; [reflexivity|]. split; [reflexivity|]. lia.
Qed.

(** ** The aggregator *)

Lemma merge_state_spec (best o : main.statusData) (t0 t : Z) :
  main.TD best = Some t0 → main.TD o = Some t →
  main.merge_state best o
  = Ok (if decide ((t0 < t)%Z ∧ main.GenesisBlock o = main.genesis) then o else best).
Proof.
  intros Hb Ho. unfold main.merge_state. rewrite Hb, Ho. cbn. unfold big.cmp. f_equal.
  destruct (Z.compare_spec t t0); cbn [big.positive andb];
    case_decide as Hd; try done; try (destruct Hd; lia).
  - case_bool_decide as Hg; [done|]. destruct Hd as [_ Hd]. by rewrite Hd in Hg.
  - case_bool_decide as Hg; [|done]. apply Hex_eq_iff in Hg. tauto.
Qed.

Lemma merge_state_Panic (best o : main.statusData) :
  main.merge_state best o = Panic ↔ main.TD o = None ∨ main.TD best = None.
Proof.
  unfold main.merge_state.
  destruct (main.TD o), (main.TD best); cbn; split; intros H; try done;
    try (by left); try (by right); by destruct H.
Qed.







(** Observations with difficulties 10 and 8 over the start value, then
    15 over it on another genesis: the first is kept. *)
Example bestState_10_8_15 :
  ∃ pxy,
    main.run main.test2_proxy
      [main.from_bestStateChan (Some (sample.state (main.startTD + 10) main.genesis));
       main.from_bestStateChan (Some (sample.state (main.startTD + 8) main.genesis));
       main.from_bestStateChan (Some (sample.state (main.startTD + 15) common.zero))]
    = Ok pxy
    ∧ main.bestState pxy = sample.state (main.startTD + 10) main.genesis.
Proof. eexists. split; vm_compute; reflexivity. Qed.

(** ** Header batches *)

(** X20. Once the retained header carries a number, a batch of numbered
    headers is merged without a panic: the header retained afterwards is
    one of the retained header and the batch, none of them has a greater
    number, and it is replaced exactly when the batch holds a greater
    number than the retained one. *)
Lemma merge_headers_max (hs : list types.Header) (best : types.Header) (nb : Z) :
  types.Number best = Some nb →
  Forall (λ h, is_Some (types.Number h)) hs →
  ∃ best' n',
    main.merge_headers best hs = Ok best'
    ∧ types.Number best' = Some n'
    ∧ best' ∈ best :: hs
    ∧ (nb ≤ n')%Z
    ∧ (∀ h n, h ∈ hs → types.Number h = Some n → (n ≤ n')%Z)
    ∧ ((∀ h n, h ∈ hs → types.Number h = Some n → (n ≤ nb)%Z) → best' = best)
    ∧ ((∃ h n, h ∈ hs ∧ types.Number h = Some n ∧ (nb < n)%Z) → (nb < n')%Z).
Proof.
  unfold main.merge_headers. revert best nb.
  induction hs as [|h hs IH]; intros best nb Hb Hall.
  - exists best, nb. cbn. repeat split; try done; try lia; try set_solver.
  - apply Forall_cons in Hall as [[n Hn] Hall].
    cbn [foldl main.merge_header mbind outcome_bind]. rewrite Hn, Hb.
    cbn [big.Cmp mbind outcome_bind]. unfold big.cmp.
    destruct (Z.compare_spec n nb) as [Heq|Hlt|Hgt]; cbn [big.positive].
    + destruct (IH best nb Hb Hall) as (b' & n' & Hf & Hn' & Hin & Hle & Hmax & Hkeep & Hup).
      exists b', n'. split; [done|]. split; [done|]. split; [set_solver|]. split; [done|].
      split; [|split].
      * intros h' m [->|Hh']%elem_of_cons Hm; [|eauto]. assert (m = n) by congruence. lia.
      * intros Hsmall. apply Hkeep. intros h' m Hh'. apply Hsmall. set_solver.
      * intros (h' & m & [->|Hh']%elem_of_cons & Hm & Hlt'); [|by apply Hup; exists h', m].
        assert (m = n) by congruence. lia.
    + destruct (IH best nb Hb Hall) as (b' & n' & Hf & Hn' & Hin & Hle & Hmax & Hkeep & Hup).
      exists b', n'. split; [done|]. split; [done|]. split; [set_solver|]. split; [done|].
      split; [|split].
      * intros h' m [->|Hh']%elem_of_cons Hm; [|eauto]. assert (m = n) by congruence. lia.
      * intros Hsmall. apply Hkeep. intros h' m Hh'. apply Hsmall. set_solver.
      * intros (h' & m & [->|Hh']%elem_of_cons & Hm & Hlt'); [|by apply Hup; exists h', m].
        assert (m = n) by congruence. lia.
    + destruct (IH h n Hn Hall) as (b' & n' & Hf & Hn' & Hin & Hle & Hmax & Hkeep & Hup).
      exists b', n'. split; [done|]. split; [done|]. split; [set_solver|]. split; [lia|].
      split; [|split].
      * intros h' m [->|Hh']%elem_of_cons Hm; [|eauto]. assert (m = n) by congruence. lia.
      * intros Hsmall. assert (n ≤ nb)%Z by (apply (Hsmall h); [set_solver|done]). lia.
      * intros _. lia.
Qed.

(** C8, at the first batch. [test2] builds the proxy without a
    [bestHeader], whose [Number] is then a nil pointer; the comparison in
    the merge of the first header received dereferences it and the loop
    panics, so no header is retained. *)
Theorem first_header_batch_panics (h : types.Header) (hs : list types.Header) :
  types.Number (main.bestHeader main.test2_proxy) = None
  ∧ main.step main.test2_proxy (main.from_bestHeaderChan (Some (h :: hs))) = Panic
  ∧ main.step main.test2_proxy (main.from_bestHeaderChan (Some [sample.header 1]))
    = Panic.
Proof.
  split; [reflexivity|].
  assert (∀ l, foldl main.merge_header Panic l = Panic) as Hpanic.
  { induction l as [|x l IHl]; [reflexivity|exact IHl]. }
  split.
  - cbn. unfold main.merge_headers. cbn. destruct (types.Number h); cbn; by rewrite Hpanic.
  - reflexivity.
Qed.

(** * Further properties of the code *)

(** ** Marking hashes *)

Section Marking_facts.

Variable start : set.Set_ → nat.

(** The eviction loop stops at the first size below the limit. *)
Lemma drop_known_size (limit : Z) (fuel : nat) (s s' : set.Set_) :
  (0 < limit)%Z →
  ethpeer.drop_known start fuel limit s = Some s' →
  set.Size s' = Z.min (set.Size s) (limit - 1).
Proof.
  intros Hlim. revert s. induction fuel as [|fuel IH]; intros s; [done|].
  cbn [ethpeer.drop_known]. case_decide as Hfull.
  - intros Hs'. apply IH in Hs'. rewrite Hs'. unfold set.Size in *.
    rewrite Pop_size. lia.
  - intros [= <-]. lia.
Qed.

Lemma with_knownBlocks_same (p : ethpeer.Peer) :
  ethpeer.with_knownBlocks p (ethpeer.knownBlocks p) = p.
Proof. by destruct p. Qed.

Lemma with_knownTxs_same (p : ethpeer.Peer) :
  ethpeer.with_knownTxs p (ethpeer.knownTxs p) = p.
Proof. by destruct p. Qed.

(** X1. [MarkBlock] always returns. Afterwards the hash is known, the
    block cache holds at most 1024 hashes and nothing but the hash was
    added; below capacity nothing is forgotten; at or above capacity a
    hash that was not known leaves the cache exactly full and at least
    one hash known before is forgotten. The transaction cache, head and
    difficulty are untouched. *)
Theorem MarkBlock_marks (p : ethpeer.Peer) (hash : common.Hash) :
  ∃ p', ethpeer.MarkBlock start p hash = Some p'
    ∧ set.Has (ethpeer.knownBlocks p') hash = true
    ∧ (set.Size (ethpeer.knownBlocks p') ≤ 1024)%Z
    ∧ ethpeer.knownBlocks p' ⊆ {[hash]} ∪ ethpeer.knownBlocks p
    ∧ ((set.Size (ethpeer.knownBlocks p) < 1024)%Z →
       ethpeer.knownBlocks p' = {[hash]} ∪ ethpeer.knownBlocks p)
    ∧ ((1024 ≤ set.Size (ethpeer.knownBlocks p))%Z → hash ∉ ethpeer.knownBlocks p →
       set.Size (ethpeer.knownBlocks p') = 1024%Z
       ∧ ∃ x, x ∈ ethpeer.knownBlocks p ∧ x ∉ ethpeer.knownBlocks p')
    ∧ ethpeer.knownTxs p' = ethpeer.knownTxs p
    ∧ ethpeer.Head p' = ethpeer.Head p.
Proof.
  destruct (drop_known_ends start ethpeer.maxKnownBlocks
              (S (size (ethpeer.knownBlocks p))) (ethpeer.knownBlocks p))
    as (s & Hs & Hsub & Hlt & Hdec & Hsame); [done|lia|].
  pose proof (drop_known_size ethpeer.maxKnownBlocks _ _ _ eq_refl Hs) as Hsize.
  exists (ethpeer.with_knownBlocks p (set.Add s hash)).
  unfold ethpeer.MarkBlock. rewrite Hs. cbn.
  change ethpeer.maxKnownBlocks with 1024%Z in *. unfold set.Has, set.Add, set.Size in *.
  split; [done|]. split; [by apply bool_decide_eq_true; set_solver|].
  assert (size (s ∖ {[hash]}) ≤ size s) by (apply subseteq_size; set_solver).
  split; [rewrite size_union_alt, size_singleton; lia|].
  split; [set_solver|]. split; [by intros Hroom; rewrite Hsame|].
  split; [|done].
  intros Hfull Hnew. split.
  - rewrite size_union, size_singleton by set_solver. lia.
  - destruct (set_choose_L (ethpeer.knownBlocks p ∖ s)) as [x Hx].
    { intros Hempty. apply (f_equal size) in Hempty.
      rewrite size_difference, size_empty in Hempty by done.
      specialize (Hdec Hfull). lia. }
    exists x. set_solver.
Qed.

(** X2. [MarkTransaction] behaves in the same way on the transaction
    cache, with the limit 32768, and leaves the block cache, head and
    difficulty untouched. *)
Theorem MarkTransaction_marks (p : ethpeer.Peer) (hash : common.Hash) :
  ∃ p', ethpeer.MarkTransaction start p hash = Some p'
    ∧ set.Has (ethpeer.knownTxs p') hash = true
    ∧ (set.Size (ethpeer.knownTxs p') ≤ 32768)%Z
    ∧ ethpeer.knownTxs p' ⊆ {[hash]} ∪ ethpeer.knownTxs p
    ∧ ((set.Size (ethpeer.knownTxs p) < 32768)%Z →
       ethpeer.knownTxs p' = {[hash]} ∪ ethpeer.knownTxs p)
    ∧ ((32768 ≤ set.Size (ethpeer.knownTxs p))%Z → hash ∉ ethpeer.knownTxs p →
       set.Size (ethpeer.knownTxs p') = 32768%Z
       ∧ ∃ x, x ∈ ethpeer.knownTxs p ∧ x ∉ ethpeer.knownTxs p')
    ∧ ethpeer.knownBlocks p' = ethpeer.knownBlocks p
    ∧ ethpeer.Head p' = ethpeer.Head p.
Proof.
  destruct (drop_known_ends start ethpeer.maxKnownTxs
              (S (size (ethpeer.knownTxs p))) (ethpeer.knownTxs p))
    as (s & Hs & Hsub & Hlt & Hdec & Hsame); [done|lia|].
  pose proof (drop_known_size ethpeer.maxKnownTxs _ _ _ eq_refl Hs) as Hsize.
  exists (ethpeer.with_knownTxs p (set.Add s hash)).
  unfold ethpeer.MarkTransaction. rewrite Hs. cbn.
  change ethpeer.maxKnownTxs with 32768%Z in *. unfold set.Has, set.Add, set.Size in *.
  split; [done|]. split; [by apply bool_decide_eq_true; set_solver|].
  assert (size (s ∖ {[hash]}) ≤ size s) by (apply subseteq_size; set_solver).
  split; [rewrite size_union_alt, size_singleton; lia|].
  split; [set_solver|]. split; [by intros Hroom; rewrite Hsame|].
  split; [|done].
  intros Hfull Hnew. split.
  - rewrite size_union, size_singleton by set_solver. lia.
  - destruct (set_choose_L (ethpeer.knownTxs p ∖ s)) as [x Hx].
    { intros Hempty. apply (f_equal size) in Hempty.
      rewrite size_difference, size_empty in Hempty by done.
      specialize (Hdec Hfull). lia. }
    exists x. set_solver.
Qed.

(** X3. Marking a block hash that is already known, on a cache below
    capacity, changes nothing: a second [MarkBlock] of the same hash
    returns the peer it was given. *)
Theorem MarkBlock_again (p p1 : ethpeer.Peer) (hash : common.Hash) :
  ethpeer.MarkBlock start p hash = Some p1 →
  (set.Size (ethpeer.knownBlocks p1) < 1024)%Z →
  ethpeer.MarkBlock start p1 hash = Some p1.
Proof.
  intros Hfirst Hroom.
  assert (hash ∈ ethpeer.knownBlocks p1) as Hknown.
  { unfold ethpeer.MarkBlock in Hfirst.
    destruct (ethpeer.drop_known _ _ _ _) as [s|]; [|done].
    injection Hfirst as <-. cbn. unfold set.Add. set_solver. }
  destruct (drop_known_ends start ethpeer.maxKnownBlocks
              (S (size (ethpeer.knownBlocks p1))) (ethpeer.knownBlocks p1))
    as (s & Hs & _ & _ & _ & Hsame); [done|lia|].
  unfold ethpeer.MarkBlock. rewrite Hs. cbn. rewrite Hsame by done.
  unfold set.Add.
  replace ({[hash]} ∪ ethpeer.knownBlocks p1) with (ethpeer.knownBlocks p1) by set_solver.
  by rewrite with_knownBlocks_same.
Qed.

End Marking_facts.

Lemma MarkBlock_again_witness :
  ethpeer.MarkBlock (λ _, 0)
    (ethpeer.with_knownBlocks sample.fresh {[sample.hash_of 1]}) (sample.hash_of 1)
  = Some (ethpeer.with_knownBlocks sample.fresh {[sample.hash_of 1]}).
Proof.
  apply (MarkBlock_again (λ _, 0) sample.fresh); vm_compute; reflexivity.
Defined.

(** ** Sending *)

(** What [p2p.Send] does to the transport double. *)
Lemma Send_spec {In Out} (rw : p2p.MsgReadWriter In Out) (code : N) (data : Out) :
  (p2p.Send rw code data).2 = p2p.write_error rw
  ∧ p2p.inbound (p2p.Send rw code data).1 = p2p.inbound rw
  ∧ p2p.write_error (p2p.Send rw code data).1 = p2p.write_error rw
  ∧ p2p.outbound (p2p.Send rw code data).1
    = match p2p.write_error rw with
      | None => p2p.outbound rw ++ [(code, data)]
      | Some _ => p2p.outbound rw
      end.
Proof.
  unfold p2p.Send. destruct (p2p.write_error rw) eqn:E; cbn; by rewrite ?E.
Qed.

(** X4. [SendTransactions] marks the hash of every transaction as known
    before it sends, evicting nothing, and the hashes stay marked when
    the send fails. The error returned is the one of the transport; when
    the write succeeds, one message with code [TxMsg] carrying the
    transactions is appended to what was written, and when it fails
    nothing is written. Block cache, head and difficulty are untouched. *)
Theorem SendTransactions_marks_then_sends (p : ethpeer.Peer) (txs : list types.Transaction) :
  let r := ethpeer.SendTransactions p txs in
  ethpeer.knownTxs r.1 = list_to_set (types.tx_hash <$> txs) ∪ ethpeer.knownTxs p
  ∧ (∀ tx, tx ∈ txs → set.Has (ethpeer.knownTxs r.1) (types.tx_hash tx) = true)
  ∧ r.2 = p2p.write_error (ethpeer.rw p)
  ∧ (r.2 = None →
     p2p.outbound (ethpeer.rw r.1)
     = p2p.outbound (ethpeer.rw p) ++ [(2%N, ethpeer.data_transactions txs)])
  ∧ (r.2 ≠ None → p2p.outbound (ethpeer.rw r.1) = p2p.outbound (ethpeer.rw p))
  ∧ ethpeer.knownBlocks r.1 = ethpeer.knownBlocks p
  ∧ ethpeer.Head r.1 = ethpeer.Head p.
Proof.
  cbv zeta. unfold ethpeer.SendTransactions.
  set (p1 := ethpeer.with_knownTxs p _).
  pose proof (Send_spec (ethpeer.rw p1) ethpeer.TxMsg (ethpeer.data_transactions txs))
    as (Herr & _ & _ & Hout).
  destruct (p2p.Send _ _ _) as [rw' err]. cbn in *. subst p1. cbn in *.
  rewrite foldl_Add_tx. split; [done|]. split.
  { intros tx Htx. apply bool_decide_eq_true. apply elem_of_union_l, elem_of_list_to_set.
    by apply list_elem_of_fmap_2. }
  split; [done|]. rewrite Hout, Herr.
  destruct (p2p.write_error (ethpeer.rw p)); by repeat split.
Qed.

(** X5. [SendNewBlock] marks the block's hash as known, evicting
    nothing, also when the send fails; it returns the error of the
    transport and, when the write succeeds, has appended one message
    with code [NewBlockMsg] carrying the block and the difficulty. The
    transaction cache, head and difficulty are untouched. *)
Theorem SendNewBlock_marks_then_sends (p : ethpeer.Peer) (block : types.Block)
    (td : option Z) :
  let r := ethpeer.SendNewBlock p block td in
  ethpeer.knownBlocks r.1 = {[types.block_hash block]} ∪ ethpeer.knownBlocks p
  ∧ set.Has (ethpeer.knownBlocks r.1) (types.block_hash block) = true
  ∧ r.2 = p2p.write_error (ethpeer.rw p)
  ∧ (r.2 = None →
     p2p.outbound (ethpeer.rw r.1)
     = p2p.outbound (ethpeer.rw p) ++ [(7%N, ethpeer.data_newBlock block td)])
  ∧ (r.2 ≠ None → p2p.outbound (ethpeer.rw r.1) = p2p.outbound (ethpeer.rw p))
  ∧ ethpeer.knownTxs r.1 = ethpeer.knownTxs p
  ∧ ethpeer.Head r.1 = ethpeer.Head p.
Proof.
  cbv zeta. unfold ethpeer.SendNewBlock.
  set (p1 := ethpeer.with_knownBlocks p _).
  pose proof (Send_spec (ethpeer.rw p1) ethpeer.NewBlockMsg (ethpeer.data_newBlock block td))
    as (Herr & _ & _ & Hout).
  destruct (p2p.Send _ _ _) as [rw' err]. cbn in *. subst p1. cbn in *.
  split; [done|]. split; [apply bool_decide_eq_true; unfold set.Add; set_solver|].
  split; [done|]. rewrite Hout, Herr.
  destruct (p2p.write_error (ethpeer.rw p)); by repeat split.
Qed.

(** X6. When it does not panic, [SendNewBlockHashes] has marked every
    announced hash as known, evicting nothing, also when the send
    fails, and returns the error of the transport; the transaction
    cache, head and difficulty are untouched. *)
Theorem SendNewBlockHashes_marks (p p' : ethpeer.Peer) (hashes : list common.Hash)
    (numbers : list N) (err : option error) :
  ethpeer.SendNewBlockHashes p hashes numbers = Ok (p', err) →
  ethpeer.knownBlocks p' = list_to_set hashes ∪ ethpeer.knownBlocks p
  ∧ (∀ h, h ∈ hashes → set.Has (ethpeer.knownBlocks p') h = true)
  ∧ err = p2p.write_error (ethpeer.rw p)
  ∧ ethpeer.knownTxs p' = ethpeer.knownTxs p
  ∧ ethpeer.Head p' = ethpeer.Head p.
Proof.
  unfold ethpeer.SendNewBlockHashes.
  destruct (foldl (ethpeer.fill_request hashes numbers) _ _) as [request|]; [|done].
  cbn [mbind outcome_bind].
  set (p1 := ethpeer.with_knownBlocks p _).
  pose proof (Send_spec (ethpeer.rw p1) ethpeer.NewBlockHashesMsg
                (ethpeer.data_newBlockHashes request)) as (Herr & _).
  destruct (p2p.Send _ _ _) as [rw' err']. cbn. intros [= <- <-]. cbn in *. subst p1. cbn in *.
  rewrite foldl_Add. split; [done|]. split; [|done].
  intros h Hh. apply bool_decide_eq_true. set_solver.
Qed.

Lemma SendNewBlockHashes_marks_witness :
  ∃ p', ethpeer.SendNewBlockHashes sample.fresh [sample.hash_of 1] [5%N] = Ok (p', None)
        ∧ ethpeer.knownBlocks p'
          = list_to_set [sample.hash_of 1] ∪ ethpeer.knownBlocks sample.fresh.
Proof.
  eexists. split; [reflexivity|].
  exact (proj1 (SendNewBlockHashes_marks sample.fresh _ [sample.hash_of 1] [5%N] None
                  eq_refl)).
Defined.

(** ** Head and SetHead *)

(** X7. [SetHead] panics exactly when one of the peer's stored
    difficulty and the difficulty given is nil and the other is not;
    with both nil it returns and the stored difficulty stays nil.
    Whenever it returns, [Head] afterwards returns the hash and the
    difficulty that were given, and genesis and both caches are
    untouched. On a peer fresh from [NewPeer] it does not panic for any
    difficulty that is not nil. *)
Theorem SetHead_then_Head (p : ethpeer.Peer) (hash : common.Hash) (td : option Z) :
  (ethpeer.SetHead p hash td = Panic
   ↔ (ethpeer.td p = None ∧ td ≠ None) ∨ (ethpeer.td p ≠ None ∧ td = None))
  ∧ (∀ p', ethpeer.SetHead p hash td = Ok p' →
       ethpeer.Head p' = (hash, td)
       ∧ ethpeer.Genesis p' = ethpeer.Genesis p
       ∧ ethpeer.knownTxs p' = ethpeer.knownTxs p
       ∧ ethpeer.knownBlocks p' = ethpeer.knownBlocks p)
  ∧ (∀ version node rw v,
       ∃ p', ethpeer.SetHead (ethpeer.NewPeer version node rw) hash (Some v) = Ok p'
             ∧ ethpeer.Head p' = (hash, Some v)).
Proof.
  unfold ethpeer.SetHead. split; [|split].
  - destruct (ethpeer.td p), td; split; intros H; try done;
      try (by left); try (by right); by destruct H as [[? ?]|[? ?]].
  - intros p'. destruct (ethpeer.td p), td; try done; by intros [= <-].
  - intros version node rw v. by eexists.
Qed.

(** ** More on the handshake *)

Lemma await_two_iff (a b : option error) (sch : ethpeer.schedule) :
  ethpeer.await 2 0 [a; b] sch = None
  ↔ a = None ∧ b = None
    ∧ ethpeer.timeout_at sch ≠ Some 0 ∧ ethpeer.timeout_at sch ≠ Some 1.
Proof.
  destruct a, b; cbn; repeat case_decide; split; try done; try tauto;
    intros (? & ? & ? & ?); done.
Qed.

(** What [Handshake] returns is what its wait loop returns. *)
Lemma Handshake_error (p : ethpeer.Peer) (network : N) (td : option Z)
    (head genesis : common.Hash) (sch : ethpeer.schedule) :
  let send := p2p.Send (ethpeer.rw p) ethpeer.StatusMsg
                (ethpeer.data_status
                   {| ethpeer.ProtocolVersion := ethpeer.version p;
                      ethpeer.NetworkId := network; ethpeer.TD := td;
                      ethpeer.CurrentBlock := head; ethpeer.GenesisBlock := genesis |}) in
  (ethpeer.Handshake p network td head genesis sch).2
  = match ethpeer.readStatus (ethpeer.with_rw p send.1) network ethpeer.zero_status
            genesis with
    | None => ethpeer.await 2 0 [send.2] sch
    | Some (_, _, read_err) =>
        ethpeer.await 2 0
          match ethpeer.order sch with
          | ethpeer.send_first => [send.2; read_err]
          | ethpeer.read_first => [read_err; send.2]
          end sch
    end.
Proof.
  cbv zeta. unfold ethpeer.Handshake.
  destruct (p2p.Send _ _ _) as [rw1 send_err]. cbn [fst snd].
  destruct (ethpeer.readStatus _ _ _ _) as [[[rw2 status] read_err]|];
    by destruct (ethpeer.await _ _ _ _).
Qed.

(** [readStatus] returns without an error exactly on a valid status. *)
Lemma readStatus_no_error (p : ethpeer.Peer) (network : N) (status : ethpeer.statusData)
    (genesis : common.Hash) :
  (∃ rw' status', ethpeer.readStatus p network status genesis = Some (rw', status', None))
  ↔ ∃ msg rest received,
      p2p.inbound (ethpeer.rw p) = inr msg :: rest
      ∧ p2p.Code msg = ethpeer.StatusMsg
      ∧ (p2p.Size msg ≤ ethpeer.ProtocolMaxMsgSize)%N
      ∧ p2p.Decode msg = Some received
      ∧ ethpeer.GenesisBlock received = genesis
      ∧ ethpeer.NetworkId received = network
      ∧ ethpeer.ProtocolVersion received = ethpeer.version p.
Proof.
  unfold ethpeer.readStatus, p2p.ReadMsg.
  destruct (p2p.inbound (ethpeer.rw p)) as [|[rerr|msg] rest] eqn:Hin.
  - split; [by intros (? & ? & ?)|by intros (? & ? & ? & ? & ?)].
  - split; [by intros (? & ? & ?)|by intros (? & ? & ? & ? & ?)].
  - split.
    + intros (rw' & st' & Hr). exists msg, rest.
      repeat case_decide; try done.
      destruct (p2p.Decode msg) as [received|] eqn:Hdec; [|done].
      repeat case_decide; try done.
      exists received. repeat split; try done. lia.
    + intros (m & r & received & [= <- <-] & Hc & Hs & Hd & Hg & Hn & Hv).
      rewrite Hd. repeat case_decide; try done; try lia. by eexists _, _.
Qed.

(** X8. [Handshake] returns no error exactly when the write of the own
    status succeeds, the timer case is taken at neither turn of the wait
    loop, and the first inbound message is a status message of at most
    10 MiB that decodes and carries the local genesis, network id and
    the peer's protocol version. *)
Theorem Handshake_succeeds_iff (p : ethpeer.Peer) (network : N) (td : option Z)
    (head genesis : common.Hash) (sch : ethpeer.schedule) :
  (ethpeer.Handshake p network td head genesis sch).2 = None
  ↔ p2p.write_error (ethpeer.rw p) = None
    ∧ ethpeer.timeout_at sch ≠ Some 0
    ∧ ethpeer.timeout_at sch ≠ Some 1
    ∧ ∃ msg rest received,
        p2p.inbound (ethpeer.rw p) = inr msg :: rest
        ∧ p2p.Code msg = 0%N
        ∧ (p2p.Size msg ≤ 10485760)%N
        ∧ p2p.Decode msg = Some received
        ∧ ethpeer.GenesisBlock received = genesis
        ∧ ethpeer.NetworkId received = network
        ∧ ethpeer.ProtocolVersion received = ethpeer.version p.
Proof.
  change 0%N with ethpeer.StatusMsg. change 10485760%N with ethpeer.ProtocolMaxMsgSize.
  rewrite Handshake_error. cbv zeta.
  match goal with |- context [p2p.Send ?rw ?c ?d] =>
    pose proof (Send_spec rw c d) as (Herr & Hin & _);
    destruct (p2p.Send rw c d) as [rw1 send_err] end.
  cbn [fst snd] in *. subst send_err.
  pose proof (readStatus_no_error (ethpeer.with_rw p rw1) network ethpeer.zero_status genesis)
    as Hread.
  cbn [ethpeer.with_rw ethpeer.rw ethpeer.version] in Hread. rewrite Hin in Hread.
  rewrite <- Hread.
  destruct (ethpeer.readStatus _ _ _ _) as [[[rw2 status] read_err]|].
  - assert (ethpeer.await 2 0
              match ethpeer.order sch with
              | ethpeer.send_first => [p2p.write_error (ethpeer.rw p); read_err]
              | ethpeer.read_first => [read_err; p2p.write_error (ethpeer.rw p)]
              end sch = None
            ↔ p2p.write_error (ethpeer.rw p) = None ∧ read_err = None
              ∧ ethpeer.timeout_at sch ≠ Some 0 ∧ ethpeer.timeout_at sch ≠ Some 1) as ->.
    { destruct (ethpeer.order sch); rewrite await_two_iff; tauto. }
    split.
    + intros (? & -> & ? & ?). repeat split; try done. by eexists _, _.
    + intros (? & ? & ? & (? & ? & [= _ _ ->])). done.
  - split; [intros Hnone; by apply await_one_Some in Hnone|].
    by intros (_ & _ & _ & (? & ? & ?)).
Qed.

(** [readStatus] takes the first inbound message off the transport,
    whatever it thinks of it, and blocks only when there is none. *)
Lemma readStatus_transport (p : ethpeer.Peer) (network : N) (status : ethpeer.statusData)
    (genesis : common.Hash) :
  match ethpeer.readStatus p network status genesis with
  | None => p2p.inbound (ethpeer.rw p) = []
  | Some (rw', _, read_err) =>
      p2p.inbound (ethpeer.rw p) ≠ []
      ∧ p2p.inbound rw' = tail (p2p.inbound (ethpeer.rw p))
      ∧ p2p.outbound rw' = p2p.outbound (ethpeer.rw p)
      ∧ ∀ e, read_err = Some e →
          (∃ rest, p2p.inbound (ethpeer.rw p) = inl e :: rest)
          ∨ e ∈ ethpeer.errResp <$>
                [ethpeer.ErrNoStatusMsg; ethpeer.ErrMsgTooLarge; ethpeer.ErrDecode;
                 ethpeer.ErrGenesisBlockMismatch; ethpeer.ErrNetworkIdMismatch;
                 ethpeer.ErrProtocolVersionMismatch]
  end.
Proof.
  unfold ethpeer.readStatus, p2p.ReadMsg.
  destruct (p2p.inbound (ethpeer.rw p)) as [|[rerr|msg] rest]; [done| |].
  - repeat split; try done. intros e [= <-]. left. by eexists.
  - repeat case_decide; try destruct (p2p.Decode msg); repeat case_decide;
      (repeat split; [done..|]); intros e [= <-]; right; cbn; set_solver.
Qed.

Lemma await_returns (turns i : nat) (errc : list (option error)) (sch : ethpeer.schedule)
    (e : error) :
  ethpeer.await turns i errc sch = Some e → e = DiscReadTimeout ∨ Some e ∈ errc.
Proof.
  revert i errc. induction turns as [|turns IH]; intros i errc; cbn; [done|].
  case_decide; [intros [= <-]; by left|].
  destruct errc as [|[err|] errc]; [intros [= <-]; by left| |].
  - intros [= <-]. right. set_solver.
  - intros He. apply IH in He as [->|He]; [by left|]. right. set_solver.
Qed.

(** X9. [Handshake] changes neither the peer's identity, version,
    stored genesis nor its caches. When the write succeeds it appends
    one status message carrying the peer's protocol version and the
    network id, difficulty, head and genesis it was called with, and
    when the write fails it writes nothing. It takes the first inbound
    message off the transport, valid or not. *)
Theorem Handshake_transport (p : ethpeer.Peer) (network : N) (td : option Z)
    (head genesis : common.Hash) (sch : ethpeer.schedule) :
  let r := ethpeer.Handshake p network td head genesis sch in
  let own := ethpeer.data_status
               {| ethpeer.ProtocolVersion := ethpeer.version p;
                  ethpeer.NetworkId := network; ethpeer.TD := td;
                  ethpeer.CurrentBlock := head; ethpeer.GenesisBlock := genesis |} in
  ethpeer.id r.1 = ethpeer.id p
  ∧ ethpeer.version r.1 = ethpeer.version p
  ∧ ethpeer.Genesis r.1 = ethpeer.Genesis p
  ∧ ethpeer.knownTxs r.1 = ethpeer.knownTxs p
  ∧ ethpeer.knownBlocks r.1 = ethpeer.knownBlocks p
  ∧ (p2p.write_error (ethpeer.rw p) = None →
     p2p.outbound (ethpeer.rw r.1) = p2p.outbound (ethpeer.rw p) ++ [(0%N, own)])
  ∧ (p2p.write_error (ethpeer.rw p) ≠ None →
     p2p.outbound (ethpeer.rw r.1) = p2p.outbound (ethpeer.rw p))
  ∧ p2p.inbound (ethpeer.rw r.1) = tail (p2p.inbound (ethpeer.rw p)).
Proof.
  cbv zeta. unfold ethpeer.Handshake.
  match goal with |- context [p2p.Send ?rw ?c ?d] =>
    pose proof (Send_spec rw c d) as (_ & Hin & _ & Hout);
    destruct (p2p.Send rw c d) as [rw1 send_err] end.
  cbn [fst snd] in *.
  pose proof (readStatus_transport (ethpeer.with_rw p rw1) network ethpeer.zero_status
                genesis) as Hread.
  destruct (ethpeer.readStatus _ _ _ _) as [[[rw2 status] read_err]|];
    cbn [ethpeer.with_rw ethpeer.rw] in Hread.
  - destruct Hread as (_ & Hin2 & Hout2 & _). rewrite Hin in Hin2. rewrite Hout in Hout2.
    destruct (ethpeer.await _ _ _ _); cbn; rewrite Hin2, Hout2;
      destruct (p2p.write_error (ethpeer.rw p)); by repeat split.
  - rewrite Hin in Hread.
    destruct (ethpeer.await _ _ _ _); cbn; rewrite ?Hin, Hout, Hread;
      destruct (p2p.write_error (ethpeer.rw p)); by repeat split.
Qed.

(** X10. Errors of [Handshake]. When the timer case is taken at the
    first turn, or nothing is inbound and the write succeeds, the error
    is [DiscReadTimeout]. Every error returned is [DiscReadTimeout], the
    error of the failed write, the error of the failed read, or one of
    the six status errors of [readStatus]. *)
Theorem Handshake_errors (p : ethpeer.Peer) (network : N) (td : option Z)
    (head genesis : common.Hash) (sch : ethpeer.schedule) :
  let r := ethpeer.Handshake p network td head genesis sch in
  (ethpeer.timeout_at sch = Some 0 → r.2 = Some DiscReadTimeout)
  ∧ (p2p.inbound (ethpeer.rw p) = [] → p2p.write_error (ethpeer.rw p) = None →
     r.2 = Some DiscReadTimeout)
  ∧ ∀ e, r.2 = Some e →
      e = DiscReadTimeout
      ∨ p2p.write_error (ethpeer.rw p) = Some e
      ∨ (∃ rest, p2p.inbound (ethpeer.rw p) = inl e :: rest)
      ∨ e ∈ ethpeer.errResp <$>
            [ethpeer.ErrNoStatusMsg; ethpeer.ErrMsgTooLarge; ethpeer.ErrDecode;
             ethpeer.ErrGenesisBlockMismatch; ethpeer.ErrNetworkIdMismatch;
             ethpeer.ErrProtocolVersionMismatch].
Proof.
  cbv zeta. rewrite Handshake_error. cbv zeta.
  match goal with |- context [p2p.Send ?rw ?c ?d] =>
    pose proof (Send_spec rw c d) as (Herr & Hin & _);
    destruct (p2p.Send rw c d) as [rw1 send_err] end.
  cbn [fst snd] in *. subst send_err.
  pose proof (readStatus_transport (ethpeer.with_rw p rw1) network ethpeer.zero_status
                genesis) as Hread.
  destruct (ethpeer.readStatus _ _ _ _) as [[[rw2 status] read_err]|];
    cbn [ethpeer.with_rw ethpeer.rw] in Hread; rewrite Hin in Hread.
  - destruct Hread as (Hne & _ & _ & Hkinds). split; [|split].
    + intros Ht. destruct (ethpeer.order sch); cbn; by rewrite Ht.
    + done.
    + intros e He. apply await_returns in He as [->|He]; [by left|].
      right. destruct (ethpeer.order sch); set_solver.
  - split; [|split].
    + intros Ht. cbn. by rewrite Ht.
    + intros _ ->. cbn. by repeat case_decide.
    + intros e He. apply await_returns in He as [->|He]; [by left|].
      right. left. set_solver.
Qed.

(** ** More on the registry *)

(** X11. In every state reached from [NewPeerSet] by the exported
    operations each entry of the map is a peer, never nil, stored under
    its own identity; so none of the scans ([PeersWithoutBlock],
    [PeersWithoutTx], [BestPeer]) panics there, in whatever order the
    map is visited. *)
Theorem reachable_registry_entries (ps : ethpeer.PeerSet) :
  ethpeer.reachable ps →
  (∀ k v, ethpeer.peers ps !! k = Some v → ∃ p, v = Some p ∧ ethpeer.id p = k)
  ∧ ∀ keys hash,
      ethpeer.PeersWithoutBlock ps keys hash ≠ Panic
      ∧ ethpeer.PeersWithoutTx ps keys hash ≠ Panic
      ∧ ethpeer.BestPeer ps keys ≠ Panic.
Proof.
  intros Hr.
  assert (∀ k v, ethpeer.peers ps !! k = Some v → ∃ p, v = Some p ∧ ethpeer.id p = k)
    as Hwf.
  { induction Hr as [|ps o ps' Hr IH Hexec]; [intros k v Hk; by destruct (lookup_empty_Some (M := gmap string) k v)|].
    destruct o; cbn in Hexec;
      try (destruct (ethpeer.PeersWithoutBlock _ _ _); cbn in Hexec);
      try (destruct (ethpeer.PeersWithoutTx _ _ _); cbn in Hexec);
      try (destruct (ethpeer.BestPeer _ _); cbn in Hexec);
      inversion Hexec; subst; try done.
    - unfold ethpeer.Register. destruct (ethpeer.closed ps); [done|].
      destruct (ethpeer.peers ps !! ethpeer.id p) eqn:E; [done|]. cbn.
      intros k v. rewrite lookup_insert. case_decide; [|by apply IH].
      intros [= <-]. by exists p.
    - unfold ethpeer.Unregister. destruct (ethpeer.peers ps !! id) eqn:E; [|done]. cbn.
      intros k v Hk. apply lookup_delete_Some in Hk as [_ Hk]. by apply IH. }
  split; [done|]. intros keys hash.
  assert (∀ known acc, foldl (ethpeer.without known hash) (Ok acc)
                         (ethpeer.visited ps keys) ≠ Panic) as Hscan.
  { intros known. unfold ethpeer.visited.
    induction keys as [|k keys IH]; intros acc; [done|]. cbn [omap list_omap].
    destruct (ethpeer.peers ps !! k) as [v|] eqn:Hk; [|apply IH].
    destruct (Hwf k v Hk) as (q & -> & _). cbn. apply IH. }
  split; [apply Hscan|]. split; [apply Hscan|].
  unfold ethpeer.BestPeer.
  destruct (best_scan (ethpeer.visited ps keys)) as (bp & bt & -> & _). done.
Qed.

Lemma reachable_registry_entries_witness :
  ethpeer.reachable sample.registry1
  ∧ ∃ p, Some sample.fresh = Some p ∧ ethpeer.id p = ethpeer.id sample.fresh.
Proof.
  assert (ethpeer.reachable sample.registry1) as Hr.
  { apply (ethpeer.reachable_exec ethpeer.NewPeerSet (ethpeer.op_Register sample.fresh)).
    - apply ethpeer.reachable_new.
    - reflexivity. }
  split; [exact Hr|].
  apply (proj1 (reachable_registry_entries sample.registry1 Hr)).
  unfold sample.registry1, ethpeer.Register. cbn [ethpeer.NewPeerSet ethpeer.closed
    ethpeer.peers fst]. rewrite lookup_empty. cbn [ethpeer.peers fst].
  apply lookup_insert_eq.
Defined.

(** X12. [Len] counts the registered identities: it is 0 on a new set,
    grows by one with every successful [Register], shrinks by one with
    every successful [Unregister], and is left alone by a failing call. *)
Theorem Len_counts (ps : ethpeer.PeerSet) (p : ethpeer.Peer) (k : string) :
  ethpeer.Len ethpeer.NewPeerSet = 0%Z
  ∧ ((ethpeer.Register ps p).2 = None →
     ethpeer.Len (ethpeer.Register ps p).1 = (ethpeer.Len ps + 1)%Z)
  ∧ ((ethpeer.Register ps p).2 ≠ None →
     ethpeer.Len (ethpeer.Register ps p).1 = ethpeer.Len ps)
  ∧ ((ethpeer.Unregister ps k).2 = None →
     ethpeer.Len (ethpeer.Unregister ps k).1 = (ethpeer.Len ps - 1)%Z)
  ∧ ((ethpeer.Unregister ps k).2 ≠ None →
     ethpeer.Len (ethpeer.Unregister ps k).1 = ethpeer.Len ps).
Proof.
  unfold ethpeer.Len, ethpeer.Register, ethpeer.Unregister.
  split; [reflexivity|].
  destruct (ethpeer.closed ps);
    destruct (ethpeer.peers ps !! ethpeer.id p) eqn:Hp;
    destruct (ethpeer.peers ps !! k) eqn:Hk; cbn;
    repeat split; intros; try done;
    rewrite ?map_size_insert_None by done; try lia;
    pose proof (map_size_delete_Some _ _ (mk_is_Some _ _ Hk));
    assert (size (ethpeer.peers ps) ≠ 0)
      by (intros Hz; apply map_size_empty_inv in Hz; by rewrite Hz, lookup_empty in Hk);
    lia.
Qed.

(** X13. [Register] and [Unregister] leave the entry of every other
    identity as it was, and on a set that is not closed an identity
    that was unregistered can be registered again. *)
Theorem Register_Unregister_others (ps : ethpeer.PeerSet) (p : ethpeer.Peer)
    (k other : string) :
  (other ≠ ethpeer.id p →
   ethpeer.PeerSet_Peer (ethpeer.Register ps p).1 other = ethpeer.PeerSet_Peer ps other)
  ∧ (other ≠ k →
     ethpeer.PeerSet_Peer (ethpeer.Unregister ps k).1 other = ethpeer.PeerSet_Peer ps other)
  ∧ (ethpeer.closed ps = false →
     let again := ethpeer.Register (ethpeer.Unregister ps (ethpeer.id p)).1 p in
     again.2 = None ∧ ethpeer.PeerSet_Peer again.1 (ethpeer.id p) = Some p).
Proof.
  unfold ethpeer.Register, ethpeer.Unregister, ethpeer.PeerSet_Peer.
  split; [|split].
  - intros Hne. destruct (ethpeer.closed ps); [done|].
    destruct (ethpeer.peers ps !! ethpeer.id p); [done|]. cbn.
    by rewrite lookup_insert_ne.
  - intros Hne. destruct (ethpeer.peers ps !! k); [|done]. cbn.
    by rewrite lookup_delete_ne.
  - intros Hc. destruct (ethpeer.peers ps !! ethpeer.id p) eqn:Hp; cbn; rewrite Hc.
    + rewrite lookup_delete_eq. cbn. by rewrite lookup_insert_eq.
    + rewrite Hp. cbn. by rewrite lookup_insert_eq.
Qed.

(** The scan of the [PeersWithout] functions: a nil value makes it panic,
    and otherwise it collects, in the order visited, the peers that do
    not know the hash. *)
Lemma without_Panic (known : ethpeer.Peer → set.Set_) (hash : common.Hash)
    (l : list (option ethpeer.Peer)) :
  foldl (ethpeer.without known hash) Panic l = Panic.
Proof. induction l as [|x l IH]; [reflexivity|exact IH]. Qed.

Lemma without_scan (known : ethpeer.Peer → set.Set_) (hash : common.Hash)
    (l : list (option ethpeer.Peer)) (acc : list ethpeer.Peer) :
  (None ∈ l → foldl (ethpeer.without known hash) (Ok acc) l = Panic)
  ∧ (None ∉ l →
     foldl (ethpeer.without known hash) (Ok acc) l
     = Ok (acc ++ filter (λ q, hash ∉ known q) (omap (λ x, x) l))).
Proof.
  revert acc. induction l as [|[q|] l IH]; intros acc.
  - split; [set_solver|]. intros _. cbn. by rewrite app_nil_r.
  - cbn [foldl ethpeer.without mbind outcome_bind]. split.
    + intros Hin. apply IH. set_solver.
    + intros Hnot. rewrite (proj2 (IH _)) by set_solver.
      cbn [omap list_omap]. rewrite filter_cons. unfold set.Has.
      case_decide; case_bool_decide; try done. by rewrite <- (assoc_L (++)).
  - split; [|set_solver]. intros _. cbn. apply without_Panic.
Qed.

Lemma nil_among (l : list (option ethpeer.Peer)) : None ∈ l ∨ None ∉ l.
Proof.
  induction l as [|[q|] l [IH|IH]]; [right|left|right|left|left]; set_solver.
Qed.

Lemma visited_values (ps : ethpeer.PeerSet) (keys : list string) (v : option ethpeer.Peer) :
  ethpeer.range_order ps keys →
  v ∈ ethpeer.visited ps keys ↔ ∃ k, ethpeer.peers ps !! k = Some v.
Proof.
  intros [_ Hkeys]. unfold ethpeer.visited. rewrite list_elem_of_omap. split.
  - intros (k & _ & Hk). by exists k.
  - intros (k & Hk). exists k. split; [|done]. apply Hkeys. by eexists.
Qed.

(** X14. [PeersWithoutBlock] and [PeersWithoutTx] panic exactly when the
    map holds a nil entry. Otherwise they return, in the order visited,
    the registered peers whose block cache (transaction cache) does not
    hold the hash: a peer is in the list exactly when it is registered
    and does not know the hash. *)
Theorem PeersWithout_spec (ps : ethpeer.PeerSet) (keys : list string) (hash : common.Hash) :
  ethpeer.range_order ps keys →
  let nil_entry := ∃ k, ethpeer.peers ps !! k = Some None in
  let registered q := ∃ k, ethpeer.peers ps !! k = Some (Some q) in
  (ethpeer.PeersWithoutBlock ps keys hash = Panic ↔ nil_entry)
  ∧ (ethpeer.PeersWithoutTx ps keys hash = Panic ↔ nil_entry)
  ∧ (∀ l, ethpeer.PeersWithoutBlock ps keys hash = Ok l →
       l = filter (λ q, hash ∉ ethpeer.knownBlocks q) (omap (λ x, x) (ethpeer.visited ps keys))
       ∧ ∀ q, q ∈ l ↔ registered q ∧ hash ∉ ethpeer.knownBlocks q)
  ∧ (∀ l, ethpeer.PeersWithoutTx ps keys hash = Ok l →
       l = filter (λ q, hash ∉ ethpeer.knownTxs q) (omap (λ x, x) (ethpeer.visited ps keys))
       ∧ ∀ q, q ∈ l ↔ registered q ∧ hash ∉ ethpeer.knownTxs q).
Proof.
  intros Horder. cbv zeta.
  unfold ethpeer.PeersWithoutBlock, ethpeer.PeersWithoutTx.
  assert (∀ q, q ∈ omap (λ x, x) (ethpeer.visited ps keys)
               ↔ ∃ k, ethpeer.peers ps !! k = Some (Some q)) as Hreg.
  { intros q. rewrite list_elem_of_omap. rewrite <- (visited_values ps keys (Some q)) by done.
    split; [by intros (x & Hx & ->)|]. intros Hq. by exists (Some q). }
  pose proof (visited_values ps keys None Horder) as Hnil. rewrite <- Hnil.
  assert (∀ known,
            (foldl (ethpeer.without known hash) (Ok []) (ethpeer.visited ps keys) = Panic
             ↔ None ∈ ethpeer.visited ps keys)
            ∧ ∀ l, foldl (ethpeer.without known hash) (Ok []) (ethpeer.visited ps keys) = Ok l →
                l = filter (λ q, hash ∉ known q) (omap (λ x, x) (ethpeer.visited ps keys))
                ∧ ∀ q, q ∈ l ↔ (∃ k, ethpeer.peers ps !! k = Some (Some q)) ∧ hash ∉ known q)
    as Hscan.
  { intros known.
    destruct (without_scan known hash (ethpeer.visited ps keys) []) as [Hp Hok].
    split.
    - split; [|done]. intros Hpanic.
      destruct (nil_among (ethpeer.visited ps keys)) as [Hin|Hnot]; [done|].
      by rewrite Hok in Hpanic.
    - intros l Hl.
      assert (None ∉ ethpeer.visited ps keys) as Hnot
        by (intros Hin; by rewrite Hp in Hl).
      rewrite Hok in Hl by done. injection Hl as <-. cbn [app]. split; [done|].
      intros q. rewrite list_elem_of_filter, Hreg. tauto. }
  destruct (Hscan ethpeer.knownBlocks) as [Hb1 Hb2].
  destruct (Hscan ethpeer.knownTxs) as [Ht1 Ht2].
  split; [done|]. split; [done|]. split; [exact Hb2|exact Ht2].
Qed.

Lemma PeersWithout_spec_witness :
  ethpeer.PeersWithoutBlock sample.registry sample.registry_keys (sample.hash_of 1) = Panic
  ↔ ∃ k, ethpeer.peers sample.registry !! k = Some None.
Proof.
  exact (proj1 (PeersWithout_spec sample.registry sample.registry_keys (sample.hash_of 1)
                  sample_registry_order)).
Defined.

(** X15. The identity under which [NewPeer] files a peer is the node
    identifier in hexadecimal, two digits per byte, and it tells node
    identifiers apart: peers made for two different nodes register side
    by side in a new set, and a second peer made for the same node is
    refused with [errAlreadyRegistered] whatever its version and
    transport. *)
Theorem NewPeer_identity (v1 v2 : N) (n1 n2 : p2p.Peer) (rw1 rw2 : ethpeer.MsgReadWriter) :
  let a := ethpeer.NewPeer v1 n1 rw1 in
  let b := ethpeer.NewPeer v2 n2 rw2 in
  let first := ethpeer.Register ethpeer.NewPeerSet a in
  let second := ethpeer.Register first.1 b in
  String.length (ethpeer.id a) = 2 * length (p2p.ID n1)
  ∧ (ethpeer.id a = ethpeer.id b ↔ p2p.ID n1 = p2p.ID n2)
  ∧ first.2 = None
  ∧ (p2p.ID n1 ≠ p2p.ID n2 →
     second.2 = None ∧ ethpeer.Len second.1 = 2%Z
     ∧ ethpeer.PeerSet_Peer second.1 (ethpeer.id a) = Some a
     ∧ ethpeer.PeerSet_Peer second.1 (ethpeer.id b) = Some b)
  ∧ (p2p.ID n1 = p2p.ID n2 →
     second = (first.1, Some ethpeer.errAlreadyRegistered)).
Proof.
  cbv zeta.
  assert (∀ bs, String.length (common.hex_bytes bs) = 2 * length bs) as Hlen.
  { induction bs as [|x bs IH]; [done|]. cbn [common.hex_bytes String.length length].
    rewrite IH. lia. }
  assert (ethpeer.id (ethpeer.NewPeer v1 n1 rw1) = ethpeer.id (ethpeer.NewPeer v2 n2 rw2)
          ↔ p2p.ID n1 = p2p.ID n2) as Hid.
  { cbn. split; [apply hex_bytes_inj|by intros ->]. }
  split; [apply Hlen|]. split; [exact Hid|].
  unfold ethpeer.Register, ethpeer.PeerSet_Peer, ethpeer.Len. cbn [ethpeer.NewPeerSet
    ethpeer.closed ethpeer.peers fst snd].
  rewrite lookup_empty. cbn [ethpeer.closed ethpeer.peers fst snd].
  split; [done|]. split.
  - intros Hne. rewrite lookup_insert_ne by (rewrite Hid; done).
    rewrite lookup_empty. cbn [ethpeer.closed ethpeer.peers fst snd].
    rewrite lookup_insert_eq, lookup_insert_ne, lookup_insert_eq
      by (intros E; symmetry in E; by rewrite Hid in E).
    rewrite !map_size_insert_None, map_size_empty; [done|done|].
    rewrite lookup_insert_ne by (rewrite Hid; done). done.
  - intros Heq. apply Hid in Heq as <-. by rewrite lookup_insert_eq.
Qed.

(** X16. [Info] reports the version, the difficulty as [Head] returns it
    and the head hash in hexadecimal behind ["0x"]; the text determines
    the hash, and for a 32-byte hash it is 66 characters long. *)
Theorem Info_snapshot (p q : ethpeer.Peer) :
  ethpeer.info_Version (ethpeer.Info p) = ethpeer.version p
  ∧ ethpeer.info_Difficulty (ethpeer.Info p) = (ethpeer.Head p).2
  ∧ (ethpeer.info_Head (ethpeer.Info p) = ethpeer.info_Head (ethpeer.Info q)
     ↔ ethpeer.head p = ethpeer.head q)
  ∧ (length (ethpeer.head p) = 32 → String.length (ethpeer.info_Head (ethpeer.Info p)) = 66)
  ∧ ∃ digits, ethpeer.info_Head (ethpeer.Info p) = String "0" (String "x" digits).
Proof.
  unfold ethpeer.Info. rewrite !Head_stored. cbn.
  split; [done|]. split; [done|]. split; [apply Hex_eq_iff|]. split; [|by eexists].
  assert (∀ bs, String.length (common.hex_bytes bs) = 2 * length bs) as Hlen.
  { induction bs as [|x bs IH]; [done|]. cbn [common.hex_bytes String.length length].
    rewrite IH. lia. }
  intros H32. rewrite Hlen, H32. reflexivity.
Qed.

(** ** More on the aggregator *)

Lemma run_Panic (evs : list main.event) :
  foldl (λ acc ev, pxy' ← acc; main.step pxy' ev) Panic evs = Panic.
Proof. induction evs as [|ev evs IH]; [reflexivity|exact IH]. Qed.

Lemma run_cons (pxy : main.proxy) (ev : main.event) (evs : list main.event) :
  main.run pxy (ev :: evs)
  = match main.step pxy ev with
    | Ok pxy' => main.run pxy' evs
    | Panic => Panic
    end.
Proof.
  unfold main.run. cbn [foldl mbind outcome_bind].
  destruct (main.step pxy ev); [done|apply run_Panic].
Qed.

Lemma merge_hei_max (best hei : main.bestHeiPeer) :
  main.bestHei (main.merge_hei best hei) = N.max (main.bestHei best) (main.bestHei hei).
Proof. unfold main.merge_hei. case_decide; lia. Qed.

(** X17. After a run of the loop that did not panic, the best height of
    each of the two height channels is the greatest of its start value
    and the heights received on that channel; what arrives on any other
    channel, a timer tick or a closed channel does not change it. *)
Theorem bestHei_is_maximum (evs : list main.event) (pxy pxy' : main.proxy) :
  main.run pxy evs = Ok pxy' →
  main.bestHei (main.bestHeiAndPeer pxy')
  = foldl N.max (main.bestHei (main.bestHeiAndPeer pxy))
      (omap (λ ev, match ev with
                   | main.from_bestHeiChan (Some hei) => Some (main.bestHei hei)
                   | _ => None
                   end) evs)
  ∧ main.bestHei (main.bestHeiAndPeer2 pxy')
    = foldl N.max (main.bestHei (main.bestHeiAndPeer2 pxy))
        (omap (λ ev, match ev with
                     | main.from_bestHeiChan2 (Some hei) => Some (main.bestHei hei)
                     | _ => None
                     end) evs).
Proof.
  revert pxy. induction evs as [|ev evs IH]; intros pxy.
  - intros [= <-]. done.
  - rewrite run_cons. destruct (main.step pxy ev) as [pxy1|] eqn:Hstep; [|done].
    intros Hrun. destruct (IH pxy1 Hrun) as [IH1 IH2]. rewrite IH1, IH2. clear IH IH1 IH2 Hrun.
    destruct ev as [[hei|]|[hei|]|[o|]|[hs|]| |]; cbn in Hstep;
      try (injection Hstep as <-; cbn; by rewrite ?merge_hei_max).
    + destruct (main.merge_state _ _); [|done]. by injection Hstep as <-.
    + destruct (main.merge_headers _ _); [|done]. by injection Hstep as <-.
Qed.

Lemma bestHei_is_maximum_witness :
  main.run main.test2_proxy sample.heights = Ok sample.after_heights
  ∧ main.bestHei (main.bestHeiAndPeer sample.after_heights) = 7%N.
Proof.
  split; [reflexivity|].
  exact (proj1 (bestHei_is_maximum sample.heights main.test2_proxy sample.after_heights
                  eq_refl)).
Defined.

Lemma foldl_max_perm (l l' : list Z) (a : Z) :
  l ≡ₚ l' → foldl Z.max a l = foldl Z.max a l'.
Proof.
  intros Hp. revert a. induction Hp as [|x l l' _ IH|x y l|l1 l2 l3 _ IH1 _ IH2]; intros a.
  - done.
  - cbn. apply IH.
  - cbn. f_equal. lia.
  - by rewrite IH1.
Qed.

(** The loop on observations that all carry a difficulty, from a stored
    state that carries one. *)
Lemma run_states (obs : list main.statusData) (pxy : main.proxy) (t0 : Z) :
  main.TD (main.bestState pxy) = Some t0 →
  Forall (λ o, is_Some (main.TD o)) obs →
  ∃ pxy',
    main.run pxy ((main.from_bestStateChan ∘ Some) <$> obs) = Ok pxy'
    ∧ main.TD (main.bestState pxy')
      = Some (foldl Z.max t0
                (omap main.TD (filter (λ o, main.GenesisBlock o = main.genesis) obs)))
    ∧ (main.bestState pxy' = main.bestState pxy ∨ main.bestState pxy' ∈ obs)
    ∧ (main.GenesisBlock (main.bestState pxy) = main.genesis →
       main.GenesisBlock (main.bestState pxy') = main.genesis)
    ∧ main.bestHeiAndPeer pxy' = main.bestHeiAndPeer pxy
    ∧ main.bestHeiAndPeer2 pxy' = main.bestHeiAndPeer2 pxy
    ∧ main.bestHeader pxy' = main.bestHeader pxy.
Proof.
  revert pxy t0. induction obs as [|o obs IH]; intros pxy t0 Ht0 Hall.
  - exists pxy. cbn. repeat split; try done. by left.
  - apply Forall_cons in Hall as [[t Ht] Hall].
    cbn [fmap list_fmap]. rewrite run_cons. cbn.
    rewrite (merge_state_spec _ _ _ _ Ht0 Ht). cbn.
    set (taken := (t0 < t)%Z ∧ main.GenesisBlock o = main.genesis).
    edestruct (IH {| main.bestState := if decide taken then o else main.bestState pxy;
                     main.bestHeiAndPeer := main.bestHeiAndPeer pxy;
                     main.bestHeiAndPeer2 := main.bestHeiAndPeer2 pxy;
                     main.bestHeader := main.bestHeader pxy |}
                  (if decide taken then t else t0))
      as (pxy' & Hrun & Htd & Hin & Hgen & H1 & H2 & H3); [by cbn; case_decide|exact Hall|].
    cbn in Hin, Hgen, H1, H2, H3.
    exists pxy'. split; [exact Hrun|]. split; [|split; [|split]]; [| | |done].
    + rewrite Htd. f_equal. subst taken.
      destruct (decide (main.GenesisBlock o = main.genesis)) as [Hg|Hg].
      * cbn [omap list_omap]. rewrite Ht. cbn [foldl]. f_equal.
        case_decide as Hd; [destruct Hd; lia|]. assert (¬ (t0 < t)%Z) by tauto. lia.
      * rewrite decide_False by tauto. done.
    + destruct Hin as [->|Hin]; [|right; set_solver].
      case_decide; [right; set_solver|by left].
    + intros Hg. apply Hgen. by case_decide as Hd; [destruct Hd|].
Qed.

(** With a stored difficulty, the loop panics on a sequence of
    observations exactly when one of them carries none. *)
Lemma run_states_Panic (obs : list main.statusData) (pxy : main.proxy) (t0 : Z) :
  main.TD (main.bestState pxy) = Some t0 →
  main.run pxy ((main.from_bestStateChan ∘ Some) <$> obs) = Panic
  ↔ ∃ o, o ∈ obs ∧ main.TD o = None.
Proof.
  revert pxy t0. induction obs as [|o obs IH]; intros pxy t0 Ht0.
  - split; [done|]. intros (o & Hin & _). set_solver.
  - cbn [fmap list_fmap]. rewrite run_cons. cbn.
    destruct (main.TD o) as [t|] eqn:Ht.
    + rewrite (merge_state_spec _ _ _ _ Ht0 Ht). cbn.
      rewrite (IH _ (if decide ((t0 < t)%Z ∧ main.GenesisBlock o = main.genesis)
                     then t else t0)) by (cbn; by case_decide).
      split; intros (o' & Hin & Hnil); exists o'; [set_solver|].
      split; [|done]. apply elem_of_cons in Hin as [->|Hin]; [congruence|done].
    + assert (main.merge_state (main.bestState pxy) o = Panic) as ->
        by (apply merge_state_Panic; by left).
      cbn. split; [|done]. intros _. exists o. set_solver.
Qed.

(** X18. From a stored state that carries a total difficulty, the loop
    panics on a sequence of chain-state observations exactly when one
    of them carries none. When all carry one, the stored total
    difficulty ends as the greatest of its start value and the
    difficulties of the observations on the configured genesis, so it
    does not depend on the order of arrival; the stored state is the
    start state or one of the observations; if it started on the
    configured genesis it stays there; heights and header are untouched. *)
Theorem bestState_TD_is_maximum (obs : list main.statusData) (pxy : main.proxy) (t0 : Z) :
  main.TD (main.bestState pxy) = Some t0 →
  (main.run pxy ((main.from_bestStateChan ∘ Some) <$> obs) = Panic
   ↔ ∃ o, o ∈ obs ∧ main.TD o = None)
  ∧ (Forall (λ o, is_Some (main.TD o)) obs →
     ∃ pxy',
       main.run pxy ((main.from_bestStateChan ∘ Some) <$> obs) = Ok pxy'
       ∧ main.TD (main.bestState pxy')
         = Some (foldl Z.max t0
                   (omap main.TD (filter (λ o, main.GenesisBlock o = main.genesis) obs)))
       ∧ (main.bestState pxy' = main.bestState pxy ∨ main.bestState pxy' ∈ obs)
       ∧ (main.GenesisBlock (main.bestState pxy) = main.genesis →
          main.GenesisBlock (main.bestState pxy') = main.genesis)
       ∧ main.bestHeiAndPeer pxy' = main.bestHeiAndPeer pxy
       ∧ main.bestHeiAndPeer2 pxy' = main.bestHeiAndPeer2 pxy
       ∧ main.bestHeader pxy' = main.bestHeader pxy
       ∧ ∀ obs' pxy'',
           obs ≡ₚ obs' →
           main.run pxy ((main.from_bestStateChan ∘ Some) <$> obs') = Ok pxy'' →
           main.TD (main.bestState pxy'') = main.TD (main.bestState pxy')).
Proof.
  intros Ht0. split; [by apply (run_states_Panic obs pxy t0)|]. intros Hall.
  destruct (run_states obs pxy t0 Ht0 Hall) as (pxy' & Hrun & Htd & Hin & Hgen & H1 & H2 & H3).
  exists pxy'. repeat split; try done.
  intros obs' pxy'' Hperm Hrun'.
  assert (Forall (λ o, is_Some (main.TD o)) obs') as Hall' by (by rewrite <- Hperm).
  destruct (run_states obs' pxy t0 Ht0 Hall') as (pxy2 & Hrun2 & Htd2 & _).
  rewrite Hrun2 in Hrun'. injection Hrun' as <-. rewrite Htd, Htd2. f_equal.
  apply foldl_max_perm. by rewrite Hperm.
Qed.

Lemma bestState_TD_is_maximum_witness :
  ∃ pxy',
    main.run main.test2_proxy
      ((main.from_bestStateChan ∘ Some)
         <$> [sample.state (main.startTD + 10) main.genesis;
              sample.state (main.startTD + 15) common.zero]) = Ok pxy'
    ∧ main.TD (main.bestState pxy') = Some (main.startTD + 10)%Z.
Proof.
  destruct (proj2 (bestState_TD_is_maximum
                     [sample.state (main.startTD + 10) main.genesis;
                      sample.state (main.startTD + 15) common.zero]
                     main.test2_proxy main.startTD eq_refl))
    as (pxy' & Hrun & Htd & _).
  - repeat constructor; by eexists.
  - exists pxy'. split; [exact Hrun|]. rewrite Htd. reflexivity.
Defined.

Lemma merge_headers_max_witness :
  ∃ best' n',
    main.merge_headers (sample.header 4) [sample.header 9; sample.header 2] = Ok best'
    ∧ types.Number best' = Some n'.
Proof.
  destruct (merge_headers_max [sample.header 9; sample.header 2] (sample.header 4) 4)
    as (best' & n' & Hm & Hn & _).
  - reflexivity.
  - repeat constructor; by eexists.
  - by exists best', n'.
Defined.



(** ** pullBestBlock *)

(** X21. On a registry whose entries are peers filed under the text of
    their node identifier, as [NewPeer] and [Register] file them,
    [pullBestBlock] does not panic: with no best peer it does nothing,
    and otherwise it runs one handshake, on the best peer, with network
    id 888888 and with that peer's own difficulty, head and stored
    genesis as the local values. *)
Theorem pullBestBlock_refreshes_best (ps : ethpeer.PeerSet) (keys : list string)
    (sch : ethpeer.schedule) :
  ethpeer.range_order ps keys →
  (∀ k v, ethpeer.peers ps !! k = Some v →
          ∃ p, v = Some p ∧ k = p2p.ID_String (ethpeer.P p)) →
  ∃ best,
    ethpeer.BestPeer ps keys = Ok best
    ∧ main.pullBestBlock ps keys sch
      = Ok match best with
           | None => None
           | Some b =>
               Some (ethpeer.Handshake b 888888 (ethpeer.td b) (ethpeer.head b)
                       (ethpeer.Genesis b) sch)
           end.
Proof.
  intros Horder Hwf. unfold main.pullBestBlock, ethpeer.BestPeer.
  destruct (best_scan (ethpeer.visited ps keys)) as (bp & bt & -> & Hinv).
  cbn [mbind outcome_bind fst]. exists bp. split; [done|].
  destruct bp as [b|]; [|done].
  destruct Hinv as (i & t & Hi & _).
  assert (Some b ∈ ethpeer.visited ps keys) as Hin by (apply list_elem_of_lookup; eauto).
  apply visited_values in Hin as [k Hk]; [|done].
  destruct (Hwf k _ Hk) as (q & [= <-] & ->).
  unfold ethpeer.AllPeer. rewrite Hk, Head_stored. reflexivity.
Qed.

Lemma sample_registry1_order : ethpeer.range_order sample.registry1 sample.registry1_keys.
Proof.
  split.
  - apply (bool_decide_unpack _). vm_compute. reflexivity.
  - intros k. rewrite <- elem_of_dom.
    assert (dom (ethpeer.peers sample.registry1)
            = list_to_set (C := gset string) sample.registry1_keys) as ->
      by (vm_compute; reflexivity).
    by rewrite elem_of_list_to_set.
Qed.

Lemma sample_registry1_filed (k : string) (v : option ethpeer.Peer) :
  ethpeer.peers sample.registry1 !! k = Some v →
  ∃ p, v = Some p ∧ k = p2p.ID_String (ethpeer.P p).
Proof.
  unfold sample.registry1, ethpeer.Register. cbn [ethpeer.NewPeerSet ethpeer.closed
    ethpeer.peers fst]. rewrite lookup_empty. cbn [ethpeer.peers fst].
  intros Hk. apply lookup_insert_Some in Hk as [[<- <-]|[_ Hk]].
  - by exists sample.fresh.
  - by apply lookup_empty_Some in Hk.
Qed.

Lemma pullBestBlock_refreshes_best_witness :
  ∃ best,
    ethpeer.BestPeer sample.registry1 sample.registry1_keys = Ok best
    ∧ main.pullBestBlock sample.registry1 sample.registry1_keys sample.in_time
      = Ok match best with
           | None => None
           | Some b =>
               Some (ethpeer.Handshake b 888888 (ethpeer.td b) (ethpeer.head b)
                       (ethpeer.Genesis b) sample.in_time)
           end.
Proof.
  exact (pullBestBlock_refreshes_best sample.registry1 sample.registry1_keys sample.in_time
           sample_registry1_order sample_registry1_filed).
Defined.

(** ** BestPeer and the visiting order *)

(** X22. The order in which the map is visited matters to [BestPeer]
    only among equals: when it returns nil for one order it returns nil
    for every order, and when it returns a peer whose difficulty no
    other registered peer shares, it returns that peer for every order. *)
Theorem BestPeer_order_independent (ps : ethpeer.PeerSet) (keys1 keys2 : list string) :
  ethpeer.range_order ps keys1 →
  ethpeer.range_order ps keys2 →
  (ethpeer.BestPeer ps keys1 = Ok None → ethpeer.BestPeer ps keys2 = Ok None)
  ∧ ∀ b, ethpeer.BestPeer ps keys1 = Ok (Some b) →
      (∀ k q, ethpeer.peers ps !! k = Some (Some q) →
              (ethpeer.Head q).2 = (ethpeer.Head b).2 → q = b) →
      ethpeer.BestPeer ps keys2 = Ok (Some b).
Proof.
  intros H1 H2. unfold ethpeer.BestPeer.
  destruct (best_scan (ethpeer.visited ps keys1)) as (bp1 & bt1 & -> & Hinv1).
  destruct (best_scan (ethpeer.visited ps keys2)) as (bp2 & bt2 & -> & Hinv2).
  cbn [mbind outcome_bind fst].
  assert (∀ keys q, ethpeer.range_order ps keys →
            (∃ k, ethpeer.peers ps !! k = Some (Some q))
            ↔ ∃ j, ethpeer.visited ps keys !! j = Some (Some q)) as Hvis.
  { intros keys q Hk. rewrite <- (visited_values ps keys (Some q) Hk).
    apply list_elem_of_lookup. }
  split.
  - intros [= ->]. destruct Hinv1 as [_ Hnull]. destruct bp2 as [b2|]; [|done].
    destruct Hinv2 as (i & t & Hi & _ & Hb2 & _).
    assert (∃ j, ethpeer.visited ps keys1 !! j = Some (Some b2)) as [j Hj]
      by (apply Hvis; [done|]; apply (Hvis keys2); eauto).
    rewrite (Hnull _ _ Hj) in Hb2. done.
  - intros b [= ->] Huniq. destruct Hinv1 as (i1 & t1 & Hi1 & _ & Hb & Hmax1).
    assert (∃ j, ethpeer.visited ps keys2 !! j = Some (Some b)) as [j Hj]
      by (apply Hvis; [done|]; apply (Hvis keys1); eauto).
    destruct bp2 as [b2|].
    + destruct Hinv2 as (i2 & t2 & Hi2 & _ & Hb2 & Hmax2).
      assert (∃ j, ethpeer.visited ps keys1 !! j = Some (Some b2)) as [j' Hj']
        by (apply Hvis; [done|]; apply (Hvis keys2); eauto).
      destruct (Hmax1 _ _ _ Hj' Hb2) as [Hle1 _].
      destruct (Hmax2 _ _ _ Hj Hb) as [Hle2 _].
      assert (t1 = t2) as -> by lia.
      assert (∃ k, ethpeer.peers ps !! k = Some (Some b2)) as [k Hk]
        by (apply (Hvis keys2); eauto).
      rewrite (Huniq k b2 Hk); [done|]. by rewrite Hb, Hb2.
    + destruct Hinv2 as [_ Hnull]. rewrite (Hnull _ _ Hj) in Hb. done.
Qed.

Lemma sample_registry_order2 : ethpeer.range_order sample.registry sample.registry_keys2.
Proof.
  split.
  - apply (bool_decide_unpack _). vm_compute. reflexivity.
  - intros k. rewrite <- elem_of_dom.
    assert (dom (ethpeer.peers sample.registry)
            = list_to_set (C := gset string) sample.registry_keys2) as ->
      by (vm_compute; reflexivity).
    by rewrite elem_of_list_to_set.
Qed.

Lemma sample_registry_nine_unique (k : string) (q : ethpeer.Peer) :
  ethpeer.peers sample.registry !! k = Some (Some q) →
  (ethpeer.Head q).2 = (ethpeer.Head (sample.peer_named "b" (Some 9%Z))).2 →
  q = sample.peer_named "b" (Some 9%Z).
Proof.
  unfold sample.registry. cbn [ethpeer.peers]. intros Hk Htd.
  repeat (apply lookup_insert_Some in Hk as [[_ Hq]|[_ Hk]];
          [injection Hq as <-; first [reflexivity|discriminate Htd]|]).
  by apply lookup_empty_Some in Hk.
Qed.

Lemma BestPeer_order_independent_witness :
  ethpeer.BestPeer sample.registry sample.registry_keys
  = Ok (Some (sample.peer_named "b" (Some 9%Z)))
  ∧ ethpeer.BestPeer sample.registry sample.registry_keys2
    = Ok (Some (sample.peer_named "b" (Some 9%Z))).
Proof.
  assert (ethpeer.BestPeer sample.registry sample.registry_keys
          = Ok (Some (sample.peer_named "b" (Some 9%Z)))) as Hfirst
    by (vm_compute; reflexivity).
  split; [exact Hfirst|].
  exact (proj2 (BestPeer_order_independent sample.registry sample.registry_keys
                  sample.registry_keys2 sample_registry_order sample_registry_order2)
           _ Hfirst sample_registry_nine_unique).
Defined.
